(** * container-agent: the manifest loader of [run_containers.py]

    A shallow embedding of the validation and derivation pipeline of
    [container_agent/run_containers.py] (validators, the four [Load*]
    passes, [CheckGroupWideConflicts], [LoadInfraContainers] and the part
    of [main] that precedes the launch), with the properties the
    specification states about it.

    Conventions of the embedding.
    - A manifest is the document [yaml.load] returns.  Its mappings are
      read field by field with ['k' in d], [d['k']] and [d.get('k', dflt)];
      each mapping is a record whose fields are [option]s ([None]: the key
      is absent).  Fields carry the types the loader expects of them
      (strings for names and paths, integers for ports, a boolean for
      [readOnly]); documents with other types are outside the model.
    - A Python [str] is a [string]; an [int] is a [Z].
    - [Fatal] writes its message and calls [sys.exit(1)]; an uncaught
      Python exception ends the run as well.  Both are results of the
      [outcome] monad, so every function below is total.
    - ['%s'] and ['%d'] of an integer are its decimal numeral, stdpp's
      [pretty]. *)

From Stdlib Require Import Ascii String ZArith Lia.
From stdpp Require Import base tactics option list strings pretty gmap sets.

(** ** Python's [re], for the two patterns of the program *)

Module Re.

(** An item of a bracket expression: one character or a range. *)
Inductive item : Type :=
| Lit (c : ascii)
| Range (lo hi : ascii).

Inductive regex : Type :=
| Void
| Eps
| Class (items : list item)
| Cat (r1 r2 : regex)
| Alt (r1 r2 : regex)
| Star (r : regex).

Definition item_mem (c : ascii) (i : item) : bool :=
  match i with
  | Lit d => Ascii.eqb c d
  | Range lo hi =>
      (nat_of_ascii lo <=? nat_of_ascii c)%nat
      && (nat_of_ascii c <=? nat_of_ascii hi)%nat
  end.

Definition class_mem (items : list item) (c : ascii) : bool :=
  existsb (item_mem c) items.

(** Does the expression accept the empty string? *)
Fixpoint nullable (r : regex) : bool :=
  match r with
  | Void => false
  | Eps => true
  | Class _ => false
  | Cat r1 r2 => nullable r1 && nullable r2
  | Alt r1 r2 => nullable r1 || nullable r2
  | Star _ => true
  end.

(** What is left of the expression after reading [c]. *)
Fixpoint deriv (c : ascii) (r : regex) : regex :=
  match r with
  | Void => Void
  | Eps => Void
  | Class items => if class_mem items c then Eps else Void
  | Cat r1 r2 =>
      if nullable r1
      then Alt (Cat (deriv c r1) r2) (deriv c r2)
      else Cat (deriv c r1) r2
  | Alt r1 r2 => Alt (deriv c r1) (deriv c r2)
  | Star r1 => Cat (deriv c r1) (Star r1)
  end.

(** The whole of [s] is a word of [r]. *)
Fixpoint fullmatch (r : regex) (s : list ascii) : bool :=
  match s with
  | [] => nullable r
  | c :: s' => fullmatch (deriv c r) s'
  end.

Definition LF : ascii := ascii_of_nat 10.

(** [s] without the newline that ends it, when one does. *)
Fixpoint chomp (s : list ascii) : option (list ascii) :=
  match s with
  | [] => None
  | [c] => if Ascii.eqb c LF then Some [] else None
  | c :: s' => cons c <$> chomp s'
  end.

(** [re.compile(r + '$').match(s)] as a truth value, for [r] without
    anchors.  [match] starts at position 0 (a leading [^] adds nothing),
    and [$] holds at the end of the string and also just before a
    newline that is its last character: a prefix of [s] must be a word of
    [r] and leave nothing, or only that newline. *)
Definition match_dollar (r : regex) (s : string) : bool :=
  let l := list_ascii_of_string s in
  fullmatch r l
  || match chomp l with
     | Some l' => fullmatch r l'
     | None => false
     end.

(** The words of an expression, as a relation. *)
Inductive lang : regex → list ascii → Prop :=
| lang_Eps : lang Eps []
| lang_Class items c : class_mem items c = true → lang (Class items) [c]
| lang_Cat r1 r2 s1 s2 :
    lang r1 s1 → lang r2 s2 → lang (Cat r1 r2) (s1 ++ s2)
| lang_Alt_l r1 r2 s : lang r1 s → lang (Alt r1 r2) s
| lang_Alt_r r1 r2 s : lang r2 s → lang (Alt r1 r2) s
| lang_Star_nil r : lang (Star r) []
| lang_Star_cons r s1 s2 :
    lang r s1 → lang (Star r) s2 → lang (Star r) (s1 ++ s2).

End Re.

(** ** Results: a value, [sys.exit] or an uncaught exception *)

Inductive exn : Type :=
| IndexError.

Inductive outcome (A : Type) : Type :=
| Ret (a : A)
| SysExit (err_str : string)
| Raise (e : exn).

Arguments Ret {A} a.
Arguments SysExit {A} err_str.
Arguments Raise {A} e.

#[global] Instance outcome_ret : MRet outcome := @Ret.

#[global] Instance outcome_bind : MBind outcome := λ A B f m,
  match m with
  | Ret a => f a
  | SysExit err_str => SysExit err_str
  | Raise e => Raise e
  end.

(** [Fatal(msg)]: the error string that goes to stderr and syslog, then
    [sys.exit(1)]. *)
Definition Fatal {A : Type} (msg : string) : outcome A :=
  SysExit ("FATAL: " +:+ msg).

Definition is_fatal {A : Type} (o : outcome A) : Prop :=
  ∃ msg, o = Fatal msg.

(** A result that is a value or a [Fatal] exit, not an exception. *)
Definition returns_or_fatal {A : Type} (o : outcome A) : Prop :=
  (∃ a, o = Ret a) ∨ is_fatal o.

(** [for i, x in enumerate(xs): st = body(i, x, st)]; the first failure
    ends the loop. *)
Fixpoint for_enumerate {St A : Type} (body : nat → A → St → outcome St)
    (i : nat) (xs : list A) (st : St) : outcome St :=
  match xs with
  | [] => Ret st
  | x :: xs' => st' ← body i x st; for_enumerate body (S i) xs' st'
  end.

(** [for x in xs: st = body(x, st)]. *)
Fixpoint for_each {St A : Type} (body : A → St → outcome St)
    (xs : list A) (st : St) : outcome St :=
  match xs with
  | [] => Ret st
  | x :: xs' => st' ← body x st; for_each body xs' st'
  end.

(** ** Constants *)

Definition SUPPORTED_CONFIG_VERSIONS : list string := ["v1beta1"].

Definition PROTOCOL_TCP : string := "TCP".
Definition PROTOCOL_UDP : string := "UDP".
Definition VALID_PROTOCOLS : list string := [PROTOCOL_TCP; PROTOCOL_UDP].

Definition lower : Re.item := Re.Range "a" "z".
Definition upper : Re.item := Re.Range "A" "Z".
Definition digit : Re.item := Re.Range "0" "9".

(** The body of [r"^[a-z]([-a-z0-9]*[a-z0-9])*$"]; the anchors are in
    [Re.match_dollar]. *)
Definition RE_RFC1035_NAME : Re.regex :=
  Re.Cat (Re.Class [lower])
    (Re.Star (Re.Cat (Re.Star (Re.Class [Re.Lit "-"; lower; digit]))
                     (Re.Class [lower; digit]))).

(** [\w] of a pattern compiled without flags: [[a-zA-Z0-9_]]. *)
Definition word : Re.regex := Re.Class [lower; upper; digit; Re.Lit "_"].

(** The body of [r"[A-Za-z_]\w*$"]. *)
Definition RE_C_TOKEN : Re.regex :=
  Re.Cat (Re.Class [upper; lower; Re.Lit "_"]) (Re.Star word).

Definition MAX_PATH_LEN : nat := 512.

Definition VOLUMES_ROOT_DIR : string := "/export".

(** ** Validators *)

Definition IsValidProtocol (proto : string) : bool :=
  bool_decide (proto ∈ VALID_PROTOCOLS).

Definition ProtocolString (proto : string) : string :=
  if decide (proto = PROTOCOL_UDP) then "/udp" else "".

Definition IsValidPort (port : Z) : bool :=
  (0 <? port)%Z && (port <=? 65535)%Z.

(** The match object or [None] that [RE_RFC1035_NAME.match] returns, as the
    truth value its callers test. *)
Definition IsRfc1035Name (name : string) : bool :=
  Re.match_dollar RE_RFC1035_NAME name.

Definition IsCToken (name : string) : bool :=
  Re.match_dollar RE_C_TOKEN name.

(** [path[0]] raises [IndexError] on the empty string. *)
Definition IsValidPath (path : string) : outcome bool :=
  match path with
  | EmptyString => Raise IndexError
  | String c _ =>
      Ret (Ascii.eqb c "/" && (String.length path <=? MAX_PATH_LEN)%nat)
  end.

(** ** The manifest, as [yaml.load] returns it *)

Record volume_spec : Type := {
  vs_name : option string
}.

Record port_spec : Type := {
  ps_name : option string;
  ps_containerPort : option Z;
  ps_hostPort : option Z;
  ps_protocol : option string
}.

Record mount_spec : Type := {
  ms_name : option string;
  ms_path : option string;
  ms_readOnly : option bool
}.

Record env_spec : Type := {
  es_key : option string;
  es_value : option string
}.

Record container_spec : Type := {
  cs_name : option string;
  cs_image : option string;
  cs_command : option (list string);
  cs_workingDir : option string;
  cs_ports : option (list port_spec);
  cs_volumeMounts : option (list mount_spec);
  cs_env : option (list env_spec)
}.

Record config : Type := {
  cfg_version : option string;
  cfg_volumes : option (list volume_spec);
  cfg_containers : option (list container_spec)
}.

(** ** class Container *)

(** A port binding [(host_port, container_port, protocol_suffix)]. *)
Definition port : Type := Z * Z * string.

Record Container : Type := {
  name : string;
  image : string;
  command : list string;
  hostname : option string;
  working_dir : option string;
  ports : list port;
  mounts : list string;
  env_vars : list string;
  network_from : option string
}.

(** [Container.__init__]. *)
Definition Container_init (name image : string) : Container := {|
  name := name;
  image := image;
  command := [];
  hostname := None;
  working_dir := None;
  ports := [];
  mounts := [];
  env_vars := [];
  network_from := None
|}.

(** [ctr.ports = ps]. *)
Definition set_ports (ps : list port) (ctr : Container) : Container := {|
  name := name ctr;
  image := image ctr;
  command := command ctr;
  hostname := hostname ctr;
  working_dir := working_dir ctr;
  ports := ps;
  mounts := mounts ctr;
  env_vars := env_vars ctr;
  network_from := network_from ctr
|}.

(** [ctr.command = cmd]. *)
Definition set_command (cmd : list string) (ctr : Container) : Container := {|
  name := name ctr;
  image := image ctr;
  command := cmd;
  hostname := hostname ctr;
  working_dir := working_dir ctr;
  ports := ports ctr;
  mounts := mounts ctr;
  env_vars := env_vars ctr;
  network_from := network_from ctr
|}.

(** ** The passes of the loader *)

Definition LoadVolumes_body (vol_index : nat) (vol : volume_spec)
    (all_vol_names : list string) : outcome (list string) :=
  match vs_name vol with
  | None => Fatal ("volumes[" +:+ pretty vol_index +:+ "] has no name")
  | Some vol_name =>
      if negb (IsRfc1035Name vol_name) then
        Fatal ("volumes[" +:+ pretty vol_index +:+ "].name is invalid: "
               +:+ vol_name)
      else if bool_decide (vol_name ∈ all_vol_names) then
        Fatal ("volumes[" +:+ pretty vol_index +:+ "].name is not unique: "
               +:+ vol_name)
      else Ret (all_vol_names ++ [vol_name])
  end.

Definition LoadVolumes (volumes : list volume_spec) : outcome (list string) :=
  for_enumerate LoadVolumes_body 0 volumes [].

(** The three accumulators of [LoadPorts]. *)
Record ports_state : Type := {
  all_ports : list port;
  all_port_names : list string;
  all_host_port_nums : list Z
}.

Definition LoadPorts_body (ctr_name : string) (port_index : nat)
    (port_spec : port_spec) (st : ports_state) : outcome ports_state :=
  '(port_name, all_port_names) ←
    match ps_name port_spec with
    | Some port_name =>
        if negb (IsRfc1035Name port_name) then
          Fatal ("containers[" +:+ ctr_name +:+ "].ports["
                 +:+ pretty port_index +:+ "].name is invalid: "
                 +:+ port_name)
        else if bool_decide (port_name ∈ all_port_names st) then
          Fatal ("containers[" +:+ ctr_name +:+ "].ports["
                 +:+ pretty port_index +:+ "].name is not unique: "
                 +:+ port_name)
        else Ret (port_name, all_port_names st ++ [port_name])
    | None => Ret (pretty port_index, all_port_names st)
    end;
  match ps_containerPort port_spec with
  | None =>
      Fatal ("containers[" +:+ ctr_name +:+ "].ports[" +:+ port_name
             +:+ "] has no containerPort")
  | Some ctr_port =>
      if negb (IsValidPort ctr_port) then
        Fatal ("containers[" +:+ ctr_name +:+ "].ports[" +:+ port_name
               +:+ "].containerPort is invalid: " +:+ pretty ctr_port)
      else
        let host_port := default ctr_port (ps_hostPort port_spec) in
        if negb (IsValidPort host_port) then
          Fatal ("containers[" +:+ ctr_name +:+ "].ports[" +:+ port_name
                 +:+ "].hostPort is invalid: " +:+ pretty host_port)
        else if bool_decide (host_port ∈ all_host_port_nums st) then
          Fatal ("containers[" +:+ ctr_name +:+ "].ports[" +:+ port_name
                 +:+ "].hostPort is not unique: " +:+ pretty host_port)
        else
          let proto := default "TCP" (ps_protocol port_spec) in
          if negb (IsValidProtocol proto) then
            Fatal ("containers[" +:+ ctr_name +:+ "].ports[" +:+ port_name
                   +:+ "].protocol is invalid: " +:+ proto)
          else
            Ret {| all_ports :=
                     all_ports st
                     ++ [(host_port, ctr_port, ProtocolString proto)];
                   all_port_names := all_port_names;
                   all_host_port_nums :=
                     all_host_port_nums st ++ [host_port] |}
  end.

Definition LoadPorts (ports_spec : list port_spec) (ctr_name : string)
    : outcome (list port) :=
  st ← for_enumerate (LoadPorts_body ctr_name) 0 ports_spec
         {| all_ports := []; all_port_names := []; all_host_port_nums := [] |};
  Ret (all_ports st).

Definition LoadVolumeMounts_body (all_volumes : list string)
    (ctr_name : string) (vol_index : nat) (vol_spec : mount_spec)
    (all_mounts : list string) : outcome (list string) :=
  match ms_name vol_spec with
  | None =>
      Fatal ("containers[" +:+ ctr_name +:+ "].volumeMounts["
             +:+ pretty vol_index +:+ "] has no name")
  | Some vol_name =>
      if negb (IsRfc1035Name vol_name) then
        Fatal ("containers[" +:+ ctr_name +:+ "].volumeMounts["
               +:+ pretty vol_index +:+ "].nameis invalid: " +:+ vol_name)
      else if negb (bool_decide (vol_name ∈ all_volumes)) then
        Fatal ("containers[" +:+ ctr_name +:+ "].volumeMounts["
               +:+ pretty vol_index +:+ "].nameis not a known volume: "
               +:+ vol_name)
      else
        match ms_path vol_spec with
        | None =>
            Fatal ("containers[" +:+ ctr_name +:+ "].volumeMounts["
                   +:+ vol_name +:+ "] has no path")
        | Some vol_path =>
            valid ← IsValidPath vol_path;
            if negb valid then
              Fatal ("containers[" +:+ ctr_name +:+ "].volumeMounts["
                     +:+ vol_name +:+ "].path is invalid: " +:+ vol_path)
            else
              let read_mode :=
                if default false (ms_readOnly vol_spec) then "ro" else "rw" in
              Ret (all_mounts
                   ++ [VOLUMES_ROOT_DIR +:+ "/" +:+ vol_name +:+ ":"
                       +:+ vol_path +:+ ":" +:+ read_mode])
        end
  end.

Definition LoadVolumeMounts (mounts_spec : list mount_spec)
    (all_volumes : list string) (ctr_name : string) : outcome (list string) :=
  for_enumerate (LoadVolumeMounts_body all_volumes ctr_name) 0 mounts_spec [].

Definition LoadEnvVars_body (ctr_name : string) (env_index : nat)
    (env_spec : env_spec) (all_env_vars : list string)
    : outcome (list string) :=
  match es_key env_spec with
  | None =>
      Fatal ("containers[" +:+ ctr_name +:+ "].env[" +:+ pretty env_index
             +:+ "] has no key")
  | Some env_key =>
      if negb (IsCToken env_key) then
        Fatal ("containers[" +:+ ctr_name +:+ "].env[" +:+ pretty env_index
               +:+ "].key is invalid: " +:+ env_key)
      else
        match es_value env_spec with
        | None =>
            Fatal ("containers[" +:+ ctr_name +:+ "].env[" +:+ env_key
                   +:+ "] has no value")
        | Some env_val => Ret (all_env_vars ++ [env_key +:+ "=" +:+ env_val])
        end
  end.

Definition LoadEnvVars (env_spec : list env_spec) (ctr_name : string)
    : outcome (list string) :=
  for_enumerate (LoadEnvVars_body ctr_name) 0 env_spec [].

(** The two accumulators of [LoadUserContainers]. *)
Record ctrs_state : Type := {
  all_ctrs : list Container;
  all_ctr_names : list string
}.

Definition LoadUserContainers_body (all_volumes : list string)
    (ctr_index : nat) (ctr_spec : container_spec) (st : ctrs_state)
    : outcome ctrs_state :=
  match cs_name ctr_spec with
  | None => Fatal ("containers[" +:+ pretty ctr_index +:+ "] has no name")
  | Some ctr_name =>
      if negb (IsRfc1035Name ctr_name) then
        Fatal ("containers[" +:+ pretty ctr_index +:+ "].name is invalid: "
               +:+ ctr_name)
      else if bool_decide (ctr_name ∈ all_ctr_names st) then
        Fatal ("containers[" +:+ pretty ctr_index +:+ "].name is not unique: "
               +:+ ctr_name)
      else
        match cs_image ctr_spec with
        | None => Fatal ("containers[" +:+ ctr_name +:+ "] has no image")
        | Some ctr_image =>
            _ ← match cs_workingDir ctr_spec with
                | Some working_dir =>
                    valid ← IsValidPath working_dir;
                    if negb valid then
                      Fatal ("containers[" +:+ ctr_name
                             +:+ "].workingDir is invalid: " +:+ working_dir)
                    else Ret ()
                | None => Ret ()
                end;
            ctr_ports ← LoadPorts (default [] (cs_ports ctr_spec)) ctr_name;
            ctr_mounts ← LoadVolumeMounts
                           (default [] (cs_volumeMounts ctr_spec))
                           all_volumes ctr_name;
            ctr_env_vars ← LoadEnvVars (default [] (cs_env ctr_spec)) ctr_name;
            let current_ctr := {|
              name := ctr_name;
              image := ctr_image;
              command := default [] (cs_command ctr_spec);
              hostname := Some ctr_name;
              working_dir := cs_workingDir ctr_spec;
              ports := ctr_ports;
              mounts := ctr_mounts;
              env_vars := ctr_env_vars;
              network_from := Some "container:.net"
            |} in
            Ret {| all_ctrs := all_ctrs st ++ [current_ctr];
                   all_ctr_names := all_ctr_names st ++ [ctr_name] |}
        end
  end.

Definition LoadUserContainers (containers : list container_spec)
    (all_volumes : list string) : outcome (list Container) :=
  st ← for_enumerate (LoadUserContainers_body all_volumes) 0 containers
         {| all_ctrs := []; all_ctr_names := [] |};
  Ret (all_ctrs st).

(** ** The group *)

(** The body of the inner loop of [CheckGroupWideConflicts]; the state is
    the pair of sets [(host_ports, ctr_ports)]. *)
Definition CheckGroupWideConflicts_body (p : port)
    (st : gset string * gset string) : outcome (gset string * gset string) :=
  let h := pretty p.1.1 +:+ p.2 in
  if bool_decide (h ∈ st.1) then
    Fatal ("host port " +:+ h +:+ " is not unique group-wide")
  else
    let host_ports := st.1 ∪ {[h]} in
    let c := pretty p.1.2 +:+ p.2 in
    if bool_decide (c ∈ st.2) then
      Fatal ("container port " +:+ c +:+ " is not unique group-wide")
    else Ret (host_ports, st.2 ∪ {[c]}).

Definition CheckGroupWideConflicts (containers : list Container)
    : outcome () :=
  _ ← for_each (λ ctr, for_each CheckGroupWideConflicts_body (ports ctr))
        containers (∅, ∅);
  Ret ().

(** A Python list of containers holds references.  The objects the
    containers pass made are kept in a store, a list in which an object is
    known by its position, and [user_containers] is a list of positions.
    [LoadInfraContainers] reads the bindings of each object it visits, adds
    them to the holder and empties them in the store: an object met a
    second time has nothing left to give.  It returns [[net_ctr]]; the
    store after the call is returned with it. *)
Definition LoadInfraContainers (user_containers : list nat)
    (store : list Container) : list Container * list Container :=
  let net_ctr :=
    set_command ["sh"; "-c"; "rm -f nap && mkfifo nap && exec cat nap"]
      (Container_init ".net" "busybox") in
  let '(net_ctr, store) :=
    fold_left
      (λ '(net_ctr, store) user_ctr,
         match store !! user_ctr with
         | Some obj =>
             (set_ports (ports net_ctr ++ ports obj) net_ctr,
              <[user_ctr := set_ports [] obj]> store)
         | None => (net_ctr, store)
         end)
      user_containers (net_ctr, store) in
  ([net_ctr], store).

Definition CheckVersion (config : config) : outcome () :=
  match cfg_version config with
  | None => Fatal "config has no version field"
  | Some version =>
      if negb (bool_decide (version ∈ SUPPORTED_CONFIG_VERSIONS)) then
        Fatal ("config version '" +:+ version +:+ "' is not supported")
      else Ret ()
  end.

(** [main] from the parsed document up to the launch: [Some group] when
    [RunContainers(group)] is called, [None] when there is nothing to
    run.  The containers pass returns its objects in the order it made
    them: they are the store, and [user_containers] refers to them by
    position, first to last.  [CheckGroupWideConflicts] only reads the
    objects and is given them as they are at its call; the group is read
    from the store after [LoadInfraContainers] has run. *)
Definition main (config : config) : outcome (option (list Container)) :=
  _ ← CheckVersion config;
  all_volumes ← LoadVolumes (default [] (cfg_volumes config));
  store ← LoadUserContainers (default [] (cfg_containers config)) all_volumes;
  let user_containers := seq 0 (length store) in
  _ ← CheckGroupWideConflicts store;
  match user_containers with
  | [] => Ret None
  | _ :: _ =>
      let '(infra_containers, store) :=
        LoadInfraContainers user_containers store in
      Ret (Some (infra_containers
                 ++ omap (λ user_ctr, store !! user_ctr) user_containers))
  end.

(** ** The specification's wording, for comparison *)

Definition is_lower_letter (c : ascii) : bool :=
  (nat_of_ascii "a" <=? nat_of_ascii c)%nat
  && (nat_of_ascii c <=? nat_of_ascii "z")%nat.

Definition is_digit (c : ascii) : bool :=
  (nat_of_ascii "0" <=? nat_of_ascii c)%nat
  && (nat_of_ascii c <=? nat_of_ascii "9")%nat.

Definition is_hyphen (c : ascii) : bool := Ascii.eqb c "-".

Definition name_char (c : ascii) : bool :=
  is_lower_letter c || is_digit c || is_hyphen c.

(** The specification's name grammar, on the characters of a string: it
    starts with a lowercase letter, holds only lowercase letters, digits
    and hyphens, and does not end with a hyphen (so it is not empty). *)
Definition rfc1035_chars (l : list ascii) : bool :=
  match l with
  | [] => false
  | c :: _ =>
      is_lower_letter c
      && forallb name_char l
      && negb (from_option is_hyphen false (last l))
  end.

Definition rfc1035_label (s : string) : bool :=
  rfc1035_chars (list_ascii_of_string s).

(** A decimal numeral: digits, with a sign in front when negative. *)
Fixpoint numeral (s : string) : bool :=
  match s with
  | EmptyString => true
  | String c s' => (is_digit c || is_hyphen c) && numeral s'
  end.

(** ** The contract of the ports sub-pass *)

(** The fields of one port entry are well formed. *)
Definition port_entry_ok (p : port_spec) : bool :=
  from_option IsRfc1035Name true (ps_name p)
  && from_option IsValidPort false (ps_containerPort p)
  && from_option IsValidPort true (ps_hostPort p)
  && from_option IsValidProtocol true (ps_protocol p).

(** The host port of an entry: [hostPort], or [containerPort] without it. *)
Definition host_port_of (p : port_spec) : Z :=
  default (default 0%Z (ps_containerPort p)) (ps_hostPort p).

(** The binding an entry stands for. *)
Definition port_of (p : port_spec) : port :=
  (host_port_of p, default 0%Z (ps_containerPort p),
   ProtocolString (default "TCP" (ps_protocol p))).

Definition ports_ok (ports_spec : list port_spec) : Prop :=
  Forall (λ p, port_entry_ok p = true) ports_spec
  ∧ NoDup (omap ps_name ports_spec)
  ∧ NoDup (host_port_of <$> ports_spec).

Definition ports_state_of (ports_spec : list port_spec) : ports_state := {|
  all_ports := port_of <$> ports_spec;
  all_port_names := omap ps_name ports_spec;
  all_host_port_nums := host_port_of <$> ports_spec
|}.

(** ** The contract of the group-wide check *)

(** All the bindings of a group, in container order. *)
Definition group_ports (containers : list Container) : list port :=
  containers ≫= ports.

(** A binding as the loader makes them: both ports in range and the
    suffix of TCP or UDP. *)
Definition validated (p : port) : Prop :=
  IsValidPort p.1.1 = true ∧ IsValidPort p.1.2 = true
  ∧ (p.2 = "" ∨ p.2 = "/udp").

(** Two bindings claim the same host port, or the same container port, for
    the same protocol. *)
Definition conflict (p q : port) : Prop :=
  (p.1.1 = q.1.1 ∧ p.2 = q.2) ∨ (p.1.2 = q.1.2 ∧ p.2 = q.2).

Definition host_key (p : port) : string := pretty p.1.1 +:+ p.2.
Definition ctr_key (p : port) : string := pretty p.1.2 +:+ p.2.

(** ** The contract of the containers pass *)

(** [ctr] is the object the containers pass makes of [ctr_spec]. *)
Definition loads_as (all_volumes : list string) (ctr_spec : container_spec)
    (ctr : Container) : Prop :=
  ∃ ctr_name ctr_image,
    cs_name ctr_spec = Some ctr_name
    ∧ IsRfc1035Name ctr_name = true
    ∧ cs_image ctr_spec = Some ctr_image
    ∧ (∀ wd, cs_workingDir ctr_spec = Some wd → IsValidPath wd = Ret true)
    ∧ LoadPorts (default [] (cs_ports ctr_spec)) ctr_name = Ret (ports ctr)
    ∧ LoadVolumeMounts (default [] (cs_volumeMounts ctr_spec)) all_volumes
        ctr_name = Ret (mounts ctr)
    ∧ LoadEnvVars (default [] (cs_env ctr_spec)) ctr_name = Ret (env_vars ctr)
    ∧ name ctr = ctr_name
    ∧ image ctr = ctr_image
    ∧ command ctr = default [] (cs_command ctr_spec)
    ∧ hostname ctr = Some ctr_name
    ∧ working_dir ctr = cs_workingDir ctr_spec
    ∧ network_from ctr = Some "container:.net".

(** A container entry with a name and an image and nothing else. *)
Definition minimal_spec (ctr_name : string) (ctr_image : option string)
    : container_spec := {|
  cs_name := Some ctr_name;
  cs_image := ctr_image;
  cs_command := None;
  cs_workingDir := None;
  cs_ports := None;
  cs_volumeMounts := None;
  cs_env := None
|}.

(** The object the containers pass makes of a minimal entry. *)
Definition minimal_ctr (ctr_name ctr_image : string) : Container := {|
  name := ctr_name;
  image := ctr_image;
  command := [];
  hostname := Some ctr_name;
  working_dir := None;
  ports := [];
  mounts := [];
  env_vars := [];
  network_from := Some "container:.net"
|}.

(** The namespace holder with the bindings [ps]. *)
Definition net_ctr_with (ps : list port) : Container := {|
  name := ".net";
  image := "busybox";
  command := ["sh"; "-c"; "rm -f nap && mkfifo nap && exec cat nap"];
  hostname := None;
  working_dir := None;
  ports := ps;
  mounts := [];
  env_vars := [];
  network_from := None
|}.

(** ** Mounts and environment, in the specification's words *)

(** [<volumes-root>/v:p:rw], or [:ro] when [readOnly] is true. *)
Definition mount_directive (v p : string) (readOnly : option bool) : string :=
  "/export/" +:+ v +:+ ":" +:+ p +:+ ":"
  +:+ match readOnly with Some true => "ro" | _ => "rw" end.

Definition mount_entry (e : string * string * option bool) : mount_spec := {|
  ms_name := Some e.1.1;
  ms_path := Some e.1.2;
  ms_readOnly := e.2
|}.

Definition env_entry (e : string * string) : env_spec := {|
  es_key := Some e.1;
  es_value := Some e.2
|}.

(** The repeated part of [RE_RFC1035_NAME], [[-a-z0-9]*[a-z0-9]]. *)
Definition block : Re.regex :=
  Re.Cat (Re.Star (Re.Class [Re.Lit "-"; lower; digit]))
         (Re.Class [lower; digit]).

(** ** The token grammar, on the characters of a key *)

Definition is_upper_letter (c : ascii) : bool :=
  (nat_of_ascii "A" <=? nat_of_ascii c)%nat
  && (nat_of_ascii c <=? nat_of_ascii "Z")%nat.

Definition is_underscore (c : ascii) : bool := Ascii.eqb c "_".

Definition word_char (c : ascii) : bool :=
  is_lower_letter c || is_upper_letter c || is_digit c || is_underscore c.

(** A C identifier: a letter or an underscore, then letters, digits and
    underscores. *)
Definition c_token_chars (l : list ascii) : bool :=
  match l with
  | [] => false
  | c :: l' =>
      (is_upper_letter c || is_lower_letter c || is_underscore c)
      && forallb word_char l'
  end.

Definition c_token (s : string) : bool :=
  c_token_chars (list_ascii_of_string s).

(** ** What the mounts and environment sub-passes make of an entry *)

Definition mounts_as (all_volumes : list string) (m : mount_spec)
    (directive : string) : Prop :=
  ∃ v p, ms_name m = Some v
    ∧ IsRfc1035Name v = true
    ∧ v ∈ all_volumes
    ∧ ms_path m = Some p
    ∧ IsValidPath p = Ret true
    ∧ directive = mount_directive v p (ms_readOnly m).


(** ** Command lines *)

(** [FlagList(values, flag)]. *)
Definition FlagList (values : list string) (flag : string) : list string :=
  fold_left (λ result v, result ++ [flag; v]) values [].

(** [FlagOrNothing(value, flag)]; [None] is Python's [None]. *)
Definition FlagOrNothing (value : option string) (flag : string)
    : list string :=
  match value with
  | Some value => [flag; value]
  | None => []
  end.

(** Every second item of a list, from the second on. *)
Fixpoint unflag (l : list string) : list string :=
  match l with
  | _ :: v :: l' => v :: unflag l'
  | _ => []
  end.

Definition PROGNAME : string := "containervm-agent".

Definition DOCKER_CMD : string := "docker".

Definition LOG_CMD : string :=
  "logger -p local3.info -t " +:+ PROGNAME +:+ " --".

(** A double quote and a newline, as strings. *)
Definition DQ : string := String (ascii_of_nat 34) EmptyString.
Definition NL : string := String Re.LF EmptyString.

(** [KEEPALIVE_SCRIPT % {'docker': docker, 'log': log, 'name': name,
    'id': id}].  The backslash that ends a line of the literal joins it to
    the next one. *)
Definition KEEPALIVE_SCRIPT (docker log name id : string) : string :=
  NL
  +:+ "  while true; do" +:+ NL
  +:+ "    read PID </proc/self/stat; PID=$(echo $PID | cut -f1 -d' ');"
  +:+ NL
  +:+ "    " +:+ log +:+ " " +:+ DQ +:+ "keepalive for container '" +:+ name
  +:+ "' (" +:+ id +:+ ") running as PID $PID" +:+ DQ +:+ ";" +:+ NL
  +:+ "    STATUS=$(" +:+ docker +:+ " wait '" +:+ id +:+ "' 2>/dev/null);"
  +:+ NL
  +:+ "    " +:+ log +:+ " " +:+ DQ +:+ "container '" +:+ name +:+ "' ("
  +:+ id +:+ ") exited with status " +:+ DQ +:+ " $STATUS;" +:+ NL
  +:+ "    if ! " +:+ docker +:+ " inspect '" +:+ id
  +:+ "' >/dev/null 2>&1; then" +:+ NL
  +:+ "      " +:+ log +:+ " " +:+ DQ +:+ "container '" +:+ name +:+ "' ("
  +:+ id +:+ ") no longer exists: " +:+ DQ +:+ " "
  +:+ "          " +:+ DQ +:+ "halting keepalive (PID $PID)" +:+ DQ +:+ ";"
  +:+ NL
  +:+ "      break;" +:+ NL
  +:+ "    fi;" +:+ NL
  +:+ "    sleep 1;" +:+ NL
  +:+ "    " +:+ log +:+ " " +:+ DQ +:+ "container '" +:+ name +:+ "' ("
  +:+ id +:+ ") restarting" +:+ DQ +:+ ";" +:+ NL
  +:+ "    " +:+ docker +:+ " restart '" +:+ id +:+ "' >/dev/null 2>&1;"
  +:+ NL
  +:+ "  done &" +:+ NL
  +:+ "  ".

(** [s.lstrip()], on the characters of [s]: the white space is tab, line
    feed, vertical tab, form feed, carriage return and space. *)
Fixpoint lstrip (l : list ascii) : list ascii :=
  match l with
  | c :: l' => if Ascii.is_space c then lstrip l' else l
  | [] => []
  end.

(** [s.strip()]. *)
Definition strip (s : string) : string :=
  string_of_list_ascii
    (rev (lstrip (rev (lstrip (list_ascii_of_string s))))).

(** The published form of a binding, ['%s:%s%s' % (p[0], p[1], p[2])]. *)
Definition port_flag (p : port) : string :=
  pretty p.1.1 +:+ ":" +:+ pretty p.1.2 +:+ p.2.

(** The command line of [docker run] that [RunContainers] builds. *)
Definition docker_run_argv (ctr : Container) : list string :=
  [DOCKER_CMD; "run"; "-d"]
  ++ ["--name"; name ctr]
  ++ FlagOrNothing (hostname ctr) "--hostname"
  ++ FlagOrNothing (working_dir ctr) "--workdir"
  ++ FlagOrNothing (network_from ctr) "--net"
  ++ FlagList (port_flag <$> ports ctr) "-p"
  ++ FlagList (mounts ctr) "-v"
  ++ FlagList (env_vars ctr) "-e"
  ++ [image ctr]
  ++ command ctr.

(** ** Running the group *)

(** What the program does to the world, in order. *)
Inductive event : Type :=
| EvLogInfo (msg : string)
| EvPopen (argv : list string)
| EvCall (argv : list string)
| EvSleep (secs : nat)
| EvSystem (cmd : string).

(** A step of the program: it extends the trace of events so far and
    returns a value, exits or raises. *)
Definition io (A : Type) : Type := list event → list event * outcome A.

#[global] Instance io_ret : MRet io := λ A a t, (t, Ret a).

#[global] Instance io_bind : MBind io := λ A B f m t,
  match m t with
  | (t', Ret a) => f a t'
  | (t', SysExit err_str) => (t', SysExit err_str)
  | (t', Raise e) => (t', Raise e)
  end.

Definition is_popen (e : event) : bool :=
  match e with EvPopen _ => true | _ => false end.

(** The number of processes started so far whose output was read. *)
Definition popens (t : list event) : nat :=
  length (List.filter is_popen t).

(** The seconds slept so far. *)
Definition slept (t : list event) : nat :=
  sum_list_with (λ e, match e with EvSleep secs => secs | _ => 0 end) t.

(** The processes whose output is read answer as the docker daemon and the
    registry decide: [runtime n] is the return code and the output of the
    process started after [n] others. *)
Definition Popen_communicate (runtime : nat → Z * string)
    (argv : list string) : io (Z * string) :=
  λ t, (t ++ [EvPopen argv], Ret (runtime (popens t))).

(** [subprocess.call] with both outputs on [/dev/null]; the return code
    is not used. *)
Definition call (argv : list string) : io () :=
  λ t, (t ++ [EvCall argv], Ret ()).

Definition LogInfo (msg : string) : io () :=
  λ t, (t ++ [EvLogInfo msg], Ret ()).

Definition sleep (secs : nat) : io () :=
  λ t, (t ++ [EvSleep secs], Ret ()).

Definition system (cmd : string) : io () :=
  λ t, (t ++ [EvSystem cmd], Ret ()).

(** [Fatal] in the middle of a run: what was done stays done. *)
Definition Fatal_io {A : Type} (msg : string) : io A :=
  λ t, (t, Fatal msg).

(** [for pulls_left in range(n, -1, -1)]: pull, and on failure log, give
    up when [pulls_left] is 0, else log, sleep and go on. *)
Fixpoint pull_loop (runtime : nat → Z * string) (image : string)
    (pulls_left : nat) : io () :=
  '(returncode, o) ← Popen_communicate runtime [DOCKER_CMD; "pull"; image];
  if (returncode =? 0)%Z then mret ()
  else
    _ ← LogInfo o;
    match pulls_left with
    | 0 => Fatal_io ("failed to pull " +:+ image)
    | S pulls_left' =>
        _ ← LogInfo ("could not pull " +:+ image +:+ ", will retry "
                     +:+ pretty pulls_left +:+ " more time"
                     +:+ (if (1 <? pulls_left)%nat then "s" else ""));
        _ ← sleep 3;
        pull_loop runtime image pulls_left'
    end.

(** The body of the loop of [RunContainers]. *)
Definition RunContainers_body (runtime : nat → Z * string)
    (ctr : Container) : io () :=
  _ ← LogInfo ("starting container '" +:+ name ctr +:+ "'");
  _ ← pull_loop runtime (image ctr) 9;
  _ ← call [DOCKER_CMD; "kill"; name ctr];
  _ ← call [DOCKER_CMD; "rm"; "-f"; name ctr];
  '(returncode, o) ← Popen_communicate runtime (docker_run_argv ctr);
  if (returncode =? 0)%Z then
    let ctr_id := strip o in
    system (KEEPALIVE_SCRIPT DOCKER_CMD LOG_CMD (name ctr) ctr_id)
  else
    _ ← LogInfo o;
    Fatal_io ("failed to run container '" +:+ name ctr +:+ "'").

Fixpoint RunContainers (runtime : nat → Z * string)
    (containers : list Container) : io () :=
  match containers with
  | [] => mret ()
  | ctr :: containers' =>
      _ ← RunContainers_body runtime ctr;
      RunContainers runtime containers'
  end.

(** The events of one container when every process succeeds; [k] is the
    number of processes read before it. *)
Definition started_events (runtime : nat → Z * string) (k : nat)
    (ctr : Container) : list event :=
  [ EvLogInfo ("starting container '" +:+ name ctr +:+ "'");
    EvPopen [DOCKER_CMD; "pull"; image ctr];
    EvCall [DOCKER_CMD; "kill"; name ctr];
    EvCall [DOCKER_CMD; "rm"; "-f"; name ctr];
    EvPopen (docker_run_argv ctr);
    EvSystem (KEEPALIVE_SCRIPT DOCKER_CMD LOG_CMD (name ctr)
                (strip (runtime (S k)).2)) ].

(** The command lines of the [docker run] processes of a trace. *)
Definition docker_runs (t : list event) : list (list string) :=
  omap (λ e, match e with
             | EvPopen (docker :: "run" :: rest) =>
                 Some (docker :: "run" :: rest)
             | _ => None
             end) t.


(** An event of the pull loop for [image]: a pull of it, a log line or a
    sleep of three seconds. *)
Definition pull_event (image : string) (e : event) : Prop :=
  match e with
  | EvPopen argv => argv = [DOCKER_CMD; "pull"; image]
  | EvLogInfo _ => True
  | EvSleep secs => secs = 3
  | EvCall _ | EvSystem _ => False
  end.


(** * Properties *)

#[global] Arguments IsRfc1035Name : simpl never.
#[global] Arguments IsCToken : simpl never.
#[global] Arguments IsValidPort : simpl never.
#[global] Arguments IsValidProtocol : simpl never.
#[global] Arguments IsValidPath : simpl never.

(** ** Regular expressions: the matcher decides the language *)

Module ReFacts.
Import Re.

Lemma nullable_lang r : nullable r = true ↔ lang r [].
Proof.
  split.
  - induction r; simpl; intros H; try discriminate.
    + constructor.
    + apply andb_true_iff in H as [H1 H2].
      change (@nil ascii) with (@nil ascii ++ []). constructor; auto.
    + apply orb_true_iff in H as [H|H]; [apply lang_Alt_l | apply lang_Alt_r];
        auto.
    + constructor.
  - intros H. remember [] as s eqn:Hs.
    induction H; simpl; try done.
    + apply app_eq_nil in Hs as [-> ->]. rewrite IHlang1, IHlang2; done.
    + rewrite IHlang; done.
    + rewrite IHlang; [apply orb_true_r | done].
Qed.

Lemma deriv_sound c r s : lang (deriv c r) s → lang r (c :: s).
Proof.
  revert s. induction r; simpl; intros s H.
  - inversion H.
  - inversion H.
  - destruct (class_mem items c) eqn:Hc; inversion H; subst.
    by constructor.
  - assert (Hcat : ∀ s, lang (Cat (deriv c r1) r2) s →
                        lang (Cat r1 r2) (c :: s)).
    { intros s' H'. inversion H'; subst.
      change (c :: s1 ++ s2) with ((c :: s1) ++ s2). constructor; auto. }
    destruct (nullable r1) eqn:Hn; [|by auto].
    inversion H; subst; [by auto|].
    change (c :: s) with ([] ++ c :: s). constructor; [|by auto].
    by apply nullable_lang.
  - inversion H; subst; [apply lang_Alt_l | apply lang_Alt_r]; auto.
  - inversion H; subst.
    change (c :: s1 ++ s2) with ((c :: s1) ++ s2). constructor; auto.
Qed.

Lemma deriv_complete c r s : lang r (c :: s) → lang (deriv c r) s.
Proof.
  intros H. remember (c :: s) as cs eqn:Hcs. revert s Hcs.
  induction H; intros t Hcs; simpl; try discriminate.
  - injection Hcs as -> <-. rewrite H. constructor.
  - destruct s1 as [|c' s1]; simpl in Hcs.
    + subst s2. apply nullable_lang in H. rewrite H.
      apply lang_Alt_r. by apply IHlang2.
    + injection Hcs as -> <-.
      assert (lang (Cat (deriv c r1) r2) (s1 ++ s2))
        by (constructor; auto).
      destruct (nullable r1); [by apply lang_Alt_l | done].
  - apply lang_Alt_l. auto.
  - apply lang_Alt_r. auto.
  - destruct s1 as [|c' s1]; simpl in Hcs.
    + by apply IHlang2.
    + injection Hcs as -> <-. constructor; auto.
Qed.

Lemma fullmatch_lang r s : fullmatch r s = true ↔ lang r s.
Proof.
  revert r. induction s as [|c s IH]; intros r; simpl.
  - apply nullable_lang.
  - rewrite IH. split; [apply deriv_sound | apply deriv_complete].
Qed.

(** ** The language of the name pattern *)

Lemma lang_Class_inv items s :
  lang (Class items) s ↔ ∃ c, s = [c] ∧ class_mem items c = true.
Proof.
  split.
  - inversion 1; subst; eauto.
  - intros (c & -> & Hc). by constructor.
Qed.

Lemma lang_Cat_inv r1 r2 s :
  lang (Cat r1 r2) s ↔ ∃ s1 s2, s = s1 ++ s2 ∧ lang r1 s1 ∧ lang r2 s2.
Proof.
  split.
  - inversion 1; subst; eauto.
  - intros (s1 & s2 & -> & H1 & H2). by constructor.
Qed.

Lemma lang_Star_Class items s :
  lang (Star (Class items)) s ↔ forallb (class_mem items) s = true.
Proof.
  split.
  - intros H. remember (Star (Class items)) as r eqn:Hr.
    induction H; try discriminate; [done|].
    injection Hr as ->. apply lang_Class_inv in H as (c & -> & Hc).
    simpl. rewrite Hc. auto.
  - induction s as [|c s IH]; simpl; intros H; [constructor|].
    apply andb_true_iff in H as [Hc Hs].
    change (c :: s) with ([c] ++ s). constructor; [by constructor | auto].
Qed.

Lemma forallb_ext {A} (f g : A → bool) l :
  (∀ a, f a = g a) → forallb f l = forallb g l.
Proof.
  intros Hfg. induction l as [|a l IH]; simpl; [done|]. by rewrite Hfg, IH.
Qed.

Lemma class_lower c : class_mem [lower] c = is_lower_letter c.
Proof. unfold class_mem; cbn [existsb]. apply orb_false_r. Qed.

Lemma class_alnum c :
  class_mem [lower; digit] c = is_lower_letter c || is_digit c.
Proof. unfold class_mem; cbn [existsb]. by rewrite orb_false_r. Qed.

Lemma class_name_char c :
  class_mem [Lit "-"; lower; digit] c = name_char c.
Proof.
  unfold class_mem, name_char; cbn [existsb]. rewrite orb_false_r.
  change (item_mem c (Lit "-")) with (is_hyphen c).
  change (item_mem c lower) with (is_lower_letter c).
  change (item_mem c digit) with (is_digit c).
  destruct (is_hyphen c), (is_lower_letter c), (is_digit c); done.
Qed.

Lemma hyphen_not_alnum c :
  is_hyphen c = true → is_lower_letter c || is_digit c = false.
Proof. unfold is_hyphen. intros ->%Ascii.eqb_eq. done. Qed.

Lemma name_char_alnum c :
  name_char c = true →
  is_lower_letter c || is_digit c = negb (is_hyphen c).
Proof.
  unfold name_char. destruct (is_hyphen c) eqn:Hh.
  - intros _. by apply hyphen_not_alnum.
  - rewrite orb_false_r. by intros ->.
Qed.

(** The words of [([-a-z0-9]*[a-z0-9])*]: name characters, the last of
    which, if any, is not a hyphen. *)
Lemma lang_blocks t :
  lang (Star block) t ↔
  forallb name_char t = true ∧ from_option is_hyphen false (last t) = false.
Proof.
  split.
  - intros H. remember (Star block) as r eqn:Hr.
    induction H; try discriminate; [done|].
    injection Hr as ->. destruct (IHlang2 eq_refl) as [Hall Hlast].
    apply lang_Cat_inv in H as (u & d & -> & Hu & Hd).
    apply lang_Star_Class in Hu.
    apply lang_Class_inv in Hd as (c & -> & Hc).
    rewrite class_alnum in Hc.
    assert (Hn : name_char c = true).
    { unfold name_char. by rewrite Hc. }
    split.
    + rewrite !forallb_app, Hall, andb_true_r. simpl. rewrite Hn, andb_true_r.
      by rewrite <-(forallb_ext _ _ u class_name_char).
    + rewrite last_app. destruct (last s2) eqn:Hs2; [done|].
      rewrite last_snoc. simpl.
      rewrite (name_char_alnum _ Hn) in Hc. by destruct (is_hyphen c).
  - intros [Hall Hlast].
    destruct (last t) as [c|] eqn:Hc.
    + apply last_Some in Hc as [u ->].
      rewrite forallb_app in Hall. apply andb_true_iff in Hall as [Hu Hn].
      simpl in Hn, Hlast. rewrite andb_true_r in Hn.
      rewrite <-(app_nil_r (u ++ [c])). constructor; [|constructor].
      apply lang_Cat_inv. exists u, [c]. split_and!; [done|..].
      * apply lang_Star_Class.
        by rewrite (forallb_ext _ _ u class_name_char).
      * apply lang_Class_inv. exists c. split; [done|].
        rewrite class_alnum, (name_char_alnum _ Hn), Hlast. done.
    + apply last_None in Hc as ->. constructor.
Qed.

Lemma lower_name_char c : is_lower_letter c = true → name_char c = true.
Proof. unfold name_char. by intros ->. Qed.

Lemma lower_not_hyphen c : is_lower_letter c = true → is_hyphen c = false.
Proof.
  intros Hc. destruct (is_hyphen c) eqn:Hh; [|done].
  apply hyphen_not_alnum in Hh. by rewrite Hc in Hh.
Qed.

Lemma lang_RFC1035 l : lang RE_RFC1035_NAME l ↔ rfc1035_chars l = true.
Proof.
  unfold RE_RFC1035_NAME. fold block. rewrite lang_Cat_inv. split.
  - intros (s1 & t & -> & H1 & Ht).
    apply lang_Class_inv in H1 as (c & -> & Hc). rewrite class_lower in Hc.
    apply lang_blocks in Ht as [Hall Hlast].
    unfold rfc1035_chars. cbn [app forallb].
    rewrite Hc, (lower_name_char _ Hc), Hall. simpl.
    destruct (last t) eqn:Ht.
    + rewrite (last_cons c t), Ht. simpl in *. by rewrite Hlast.
    + apply last_None in Ht as ->. simpl. by rewrite (lower_not_hyphen _ Hc).
  - destruct l as [|c t]; [done|]. unfold rfc1035_chars. cbn [forallb].
    intros [[Hc [_ Hall]%andb_true_iff]%andb_true_iff Hlast]%andb_true_iff.
    exists [c], t. split_and!; [done|..].
    + apply lang_Class_inv. exists c. by rewrite class_lower.
    + apply lang_blocks. split; [done|].
      apply negb_true_iff in Hlast.
      destruct (last t) eqn:Ht; [|done].
      by rewrite (last_cons c t), Ht in Hlast.
Qed.

Lemma fullmatch_RFC1035 l : fullmatch RE_RFC1035_NAME l = rfc1035_chars l.
Proof.
  apply eq_true_iff_eq. rewrite fullmatch_lang. apply lang_RFC1035.
Qed.
End ReFacts.

(** ** The name validator *)

Lemma chomp_Some l l' : Re.chomp l = Some l' ↔ l = l' ++ [Re.LF].
Proof.
  revert l'. induction l as [|c l IH]; intros l'.
  - split; [done|]. by destruct l'.
  - destruct l as [|d l].
    + clear IH. simpl. destruct (Ascii.eqb_spec c Re.LF) as [->|Hne].
      * split; [by intros [= <-]|]. by destruct l' as [|? [|]].
      * split; [done|]. destruct l' as [|? [|]]; [|done..].
        intros [= ->]. done.
    + change (Re.chomp (c :: d :: l)) with (cons c <$> Re.chomp (d :: l)).
      destruct (Re.chomp (d :: l)) as [t|]; simpl.
      * pose proof (proj1 (IH t) eq_refl) as Ht. rewrite Ht.
        split; [by intros [= <-]|].
        destruct l' as [|c' l']; simpl.
        { intros [= _ Hl]. by destruct t. }
        intros [= -> Hl]. by apply app_inv_tail in Hl as ->.
      * split; [done|]. destruct l' as [|c' l']; simpl.
        { intros [= _ Hl]. }
        intros [= -> Hl]. by apply IH in Hl.
Qed.

Lemma list_ascii_of_string_app s1 s2 :
  list_ascii_of_string (s1 +:+ s2)
  = list_ascii_of_string s1 ++ list_ascii_of_string s2.
Proof.
  induction s1 as [|c s1 IH]; [done|].
  change (String c s1 +:+ s2) with (String c (s1 +:+ s2)).
  simpl. by rewrite IH.
Qed.

Lemma IsRfc1035Name_unfold s :
  IsRfc1035Name s
  = rfc1035_label s
    || from_option rfc1035_chars false (Re.chomp (list_ascii_of_string s)).
Proof.
  unfold IsRfc1035Name, Re.match_dollar, rfc1035_label.
  rewrite ReFacts.fullmatch_RFC1035.
  destruct (Re.chomp _); simpl; [|done].
  by rewrite ReFacts.fullmatch_RFC1035.
Qed.

(** The name validator accepts the labels of the grammar and, because of
    [$], each of them followed by one newline. *)
Lemma IsRfc1035Name_iff s :
  IsRfc1035Name s = true ↔
  rfc1035_label s = true
  ∨ ∃ p, s = p +:+ String Re.LF "" ∧ rfc1035_label p = true.
Proof.
  rewrite IsRfc1035Name_unfold, orb_true_iff.
  apply or_iff_compat_l. split.
  - destruct (Re.chomp _) as [l'|] eqn:Hl; [|done]. simpl. intros Hl'.
    apply chomp_Some in Hl. exists (string_of_list_ascii l'). split.
    + rewrite <-(string_of_list_ascii_of_string s), Hl.
      rewrite <-(list_ascii_of_string_of_list_ascii l') at 1.
      change [Re.LF] with (list_ascii_of_string (String Re.LF "")).
      by rewrite <-list_ascii_of_string_app, string_of_list_ascii_of_string.
    + unfold rfc1035_label. by rewrite list_ascii_of_string_of_list_ascii.
  - intros (p & -> & Hp). rewrite list_ascii_of_string_app.
    change (list_ascii_of_string (String Re.LF "")) with [Re.LF].
    by rewrite (proj2 (chomp_Some _ _) eq_refl).
Qed.

Lemma IsRfc1035Name_net : IsRfc1035Name ".net" = false.
Proof. reflexivity. Qed.

(** ** Decimal numerals *)

Lemma pretty_N_char_digit x : is_digit (pretty_N_char x) = true.
Proof. unfold pretty_N_char. by repeat case_match. Qed.

Lemma pretty_N_go_numeral x s :
  numeral s = true → numeral (pretty_N_go x s) = true.
Proof.
  revert s. induction (N.lt_wf_0 x) as [x _ IH]; intros s Hs.
  assert (x = 0 ∨ 0 < x)%N as [->|?] by lia.
  - by rewrite pretty_N_go_0.
  - rewrite pretty_N_go_step by done. apply IH.
    { by apply N.div_lt. }
    simpl. by rewrite pretty_N_char_digit, Hs.
Qed.

Lemma pretty_N_numeral (x : N) : numeral (pretty x) = true.
Proof.
  unfold pretty, pretty_N. case_decide; [done|]. by apply pretty_N_go_numeral.
Qed.

Lemma pretty_Z_numeral (z : Z) : numeral (pretty z) = true.
Proof.
  destruct z as [|p|p]; [done|apply pretty_N_numeral|].
  change (pretty (Z.neg p)) with ("-" +:+ pretty (N.pos p)).
  simpl. apply pretty_N_numeral.
Qed.

(** A numeral followed by a protocol suffix splits in one way only. *)
Lemma numeral_suffix_inj a b t1 t2 :
  numeral a = true → numeral b = true →
  (t1 = "" ∨ t1 = "/udp") → (t2 = "" ∨ t2 = "/udp") →
  a +:+ t1 = b +:+ t2 → a = b ∧ t1 = t2.
Proof.
  revert b. induction a as [|c a IH]; intros [|d b] Ha Hb H1 H2 Hab.
  - done.
  - exfalso. change (t1 = String d (b +:+ t2)) in Hab.
    simpl in Hb. apply andb_true_iff in Hb as [Hd _].
    destruct H1 as [->| ->]; [done|]. by injection Hab as <- _.
  - exfalso. change (String c (a +:+ t1) = t2) in Hab.
    simpl in Ha. apply andb_true_iff in Ha as [Hc _].
    destruct H2 as [->| ->]; [done|]. by injection Hab as -> _.
  - change (String c (a +:+ t1) = String d (b +:+ t2)) in Hab.
    injection Hab as -> Hab. simpl in Ha, Hb.
    apply andb_true_iff in Ha as [_ Ha]. apply andb_true_iff in Hb as [_ Hb].
    destruct (IH b Ha Hb H1 H2 Hab) as [-> ->]. done.
Qed.

Lemma host_key_inj p q :
  validated p → validated q → host_key p = host_key q →
  p.1.1 = q.1.1 ∧ p.2 = q.2.
Proof.
  intros (_ & _ & Hp) (_ & _ & Hq) Hk.
  apply numeral_suffix_inj in Hk as [Hk ->];
    auto using pretty_Z_numeral.
  by apply (inj pretty) in Hk.
Qed.

Lemma ctr_key_inj p q :
  validated p → validated q → ctr_key p = ctr_key q →
  p.1.2 = q.1.2 ∧ p.2 = q.2.
Proof.
  intros (_ & _ & Hp) (_ & _ & Hq) Hk.
  apply numeral_suffix_inj in Hk as [Hk ->];
    auto using pretty_Z_numeral.
  by apply (inj pretty) in Hk.
Qed.

(** ** Results and loops *)

Lemma bind_Ret {A B} (m : outcome A) (f : A → outcome B) b :
  m ≫= f = Ret b ↔ ∃ a, m = Ret a ∧ f a = Ret b.
Proof.
  destruct m as [a| |]; simpl.
  - split; [eauto | by intros (a' & [= <-] & ?)].
  - split; [done | by intros (? & ? & _)].
  - split; [done | by intros (? & ? & _)].
Qed.

Lemma for_enumerate_app {St A} (body : nat → A → St → outcome St) i xs ys st :
  for_enumerate body i (xs ++ ys) st
  = for_enumerate body i xs st ≫= for_enumerate body (i + length xs) ys.
Proof.
  revert i st. induction xs as [|x xs IH]; intros i st; simpl.
  - by rewrite Nat.add_0_r.
  - destruct (body i x st) as [st'| |]; simpl; [|done..].
    rewrite IH. by rewrite Nat.add_succ_comm.
Qed.

Lemma for_enumerate_snoc {St A} (body : nat → A → St → outcome St) i xs x st :
  for_enumerate body i (xs ++ [x]) st
  = for_enumerate body i xs st ≫= body (i + length xs) x.
Proof.
  rewrite for_enumerate_app. destruct (for_enumerate body i xs st); simpl;
    [|done..].
  by destruct (body _ x a).
Qed.

Lemma for_each_app {St A} (body : A → St → outcome St) xs ys st :
  for_each body (xs ++ ys) st = for_each body xs st ≫= for_each body ys.
Proof.
  revert st. induction xs as [|x xs IH]; intros st; simpl; [done|].
  destruct (body x st) as [st'| |]; simpl; [|done..]. apply IH.
Qed.

Lemma Fatal_returns_or_fatal {A} msg : returns_or_fatal (@Fatal A msg).
Proof. right. by exists msg. Qed.

Lemma Ret_returns_or_fatal {A} (a : A) : returns_or_fatal (Ret a).
Proof. left. by exists a. Qed.

Lemma bind_returns_or_fatal {A B} (m : outcome A) (f : A → outcome B) :
  returns_or_fatal m → (∀ a, returns_or_fatal (f a)) →
  returns_or_fatal (m ≫= f).
Proof.
  intros [[a ->]|[msg ->]] Hf; simpl; [apply Hf|apply Fatal_returns_or_fatal].
Qed.

Lemma for_enumerate_returns_or_fatal {St A}
    (body : nat → A → St → outcome St) i xs st :
  (∀ i x st, returns_or_fatal (body i x st)) →
  returns_or_fatal (for_enumerate body i xs st).
Proof.
  intros Hbody. revert i st. induction xs as [|x xs IH]; intros i st; simpl.
  - apply Ret_returns_or_fatal.
  - apply bind_returns_or_fatal; auto.
Qed.

Lemma for_each_returns_or_fatal {St A} (body : A → St → outcome St) xs st :
  (∀ x st, returns_or_fatal (body x st)) →
  returns_or_fatal (for_each body xs st).
Proof.
  intros Hbody. revert st. induction xs as [|x xs IH]; intros st; simpl.
  - apply Ret_returns_or_fatal.
  - apply bind_returns_or_fatal; auto.
Qed.

Lemma not_Ret_is_fatal {A} (o : outcome A) :
  returns_or_fatal o → (∀ a, o ≠ Ret a) → is_fatal o.
Proof. intros [[a ->]|?] Hne; [by destruct (Hne a)|done]. Qed.

Lemma is_fatal_not_Ret {A} (o : outcome A) a : is_fatal o → o ≠ Ret a.
Proof. by intros [msg ->]. Qed.

(** ** The group-wide check *)

Lemma not_NoDup_fmap {A B} `{EqDecision B} (f : A → B) (l : list A) :
  ¬ NoDup (f <$> l) ↔
  ∃ i j x y, i ≠ j ∧ l !! i = Some x ∧ l !! j = Some y ∧ f x = f y.
Proof.
  split.
  - induction l as [|x l IH]; simpl; intros Hnd.
    { destruct Hnd. constructor. }
    destruct (decide (f x ∈ f <$> l)) as [Hin|Hnin].
    + apply list_elem_of_fmap in Hin as (y & Hxy & Hy).
      apply list_elem_of_lookup in Hy as [j Hj].
      exists 0, (S j), x, y. done.
    + destruct IH as (i & j & a & b & Hij & Hi & Hj & Hab).
      { intros Hl. apply Hnd. by constructor. }
      exists (S i), (S j), a, b. split_and!; [lia|done..].
  - intros (i & j & x & y & Hij & Hi & Hj & Hxy) Hnd. apply Hij.
    apply (NoDup_lookup _ i j (f x) Hnd).
    + by rewrite list_lookup_fmap, Hi.
    + by rewrite list_lookup_fmap, Hj, Hxy.
Qed.

Lemma CheckGroupWideConflicts_body_Ret p st st' :
  CheckGroupWideConflicts_body p st = Ret st' ↔
  (host_key p ∉ st.1) ∧ (ctr_key p ∉ st.2)
  ∧ st' = (st.1 ∪ {[host_key p]}, st.2 ∪ {[ctr_key p]}).
Proof.
  unfold CheckGroupWideConflicts_body. fold (host_key p) (ctr_key p).
  repeat case_bool_decide; split; try done.
  - by intros (? & _).
  - by intros (_ & ? & _).
  - by intros [= <-].
  - by intros (_ & _ & ->).
Qed.

Lemma CheckGroupWideConflicts_body_returns_or_fatal p st :
  returns_or_fatal (CheckGroupWideConflicts_body p st).
Proof.
  unfold CheckGroupWideConflicts_body.
  repeat case_bool_decide;
    auto using @Fatal_returns_or_fatal, @Ret_returns_or_fatal.
Qed.

Lemma CheckGroupWideConflicts_body_host_dup p st :
  host_key p ∈ st.1 →
  CheckGroupWideConflicts_body p st
  = Fatal ("host port " +:+ host_key p +:+ " is not unique group-wide").
Proof.
  intros Hin. unfold CheckGroupWideConflicts_body. fold (host_key p).
  by rewrite bool_decide_eq_true_2.
Qed.

Lemma check_loop_Ret ps st :
  (∃ st', for_each CheckGroupWideConflicts_body ps st = Ret st') ↔
  NoDup (host_key <$> ps) ∧ NoDup (ctr_key <$> ps)
  ∧ Forall (λ p, (host_key p ∉ st.1) ∧ (ctr_key p ∉ st.2)) ps.
Proof.
  revert st. induction ps as [|p ps IH]; intros st; simpl.
  - split; [|by eauto]. intros _. split_and!; constructor.
  - setoid_rewrite bind_Ret. setoid_rewrite CheckGroupWideConflicts_body_Ret.
    rewrite !NoDup_cons, Forall_cons. split.
    + intros (st' & st1 & (Hh & Hc & ->) & Hloop).
      destruct (proj1 (IH _) (ex_intro _ st' Hloop)) as (Hnh & Hnc & Hall).
      simpl in Hall. rewrite Forall_forall in Hall. split_and!; try done.
      * intros (q & Hq & Hin)%list_elem_of_fmap.
        destruct (Hall q Hin) as [Hqh _]. apply Hqh.
        apply elem_of_union. right. by apply elem_of_singleton.
      * intros (q & Hq & Hin)%list_elem_of_fmap.
        destruct (Hall q Hin) as [_ Hqc]. apply Hqc.
        apply elem_of_union. right. by apply elem_of_singleton.
      * apply Forall_forall. intros q Hin.
        destruct (Hall q Hin) as [Hqh Hqc].
        split; intros ?; [apply Hqh|apply Hqc]; apply elem_of_union; by left.
    + intros ((Hph & Hnh) & (Hpc & Hnc) & (Hh & Hc) & Hall).
      destruct (proj2 (IH (st.1 ∪ {[host_key p]}, st.2 ∪ {[ctr_key p]})))
        as [st' Hst'].
      { split_and!; try done. rewrite Forall_forall in Hall |- *.
        intros q Hq. destruct (Hall q Hq) as [Hqh Hqc]. simpl.
        split; intros [?|Heq%elem_of_singleton]%elem_of_union; try done.
        - apply Hph, list_elem_of_fmap. eauto.
        - apply Hpc, list_elem_of_fmap. eauto. }
      eauto 10.
Qed.

Lemma check_loop_flatten ctrs st :
  for_each (λ ctr, for_each CheckGroupWideConflicts_body (ports ctr)) ctrs st
  = for_each CheckGroupWideConflicts_body (group_ports ctrs) st.
Proof.
  revert st. induction ctrs as [|c ctrs IH]; intros st; [done|].
  change (group_ports (c :: ctrs)) with (ports c ++ group_ports ctrs).
  rewrite for_each_app. simpl.
  destruct (for_each CheckGroupWideConflicts_body (ports c) st); simpl;
    [apply IH|done..].
Qed.

Lemma CheckGroupWideConflicts_Ret ctrs :
  CheckGroupWideConflicts ctrs = Ret () ↔
  NoDup (host_key <$> group_ports ctrs) ∧ NoDup (ctr_key <$> group_ports ctrs).
Proof.
  unfold CheckGroupWideConflicts. rewrite check_loop_flatten.
  pose proof (check_loop_Ret (group_ports ctrs) (∅, ∅)) as Hloop.
  split.
  - intros (st' & Hst' & _)%bind_Ret.
    destruct (proj1 Hloop (ex_intro _ st' Hst')) as (? & ? & _). done.
  - intros [Hh Hc]. destruct (proj2 Hloop) as [st' ->]; [|done].
    split_and!; [done..|]. apply Forall_forall. intros p _. simpl.
    split; apply not_elem_of_empty.
Qed.

Lemma CheckGroupWideConflicts_returns_or_fatal ctrs :
  returns_or_fatal (CheckGroupWideConflicts ctrs).
Proof.
  unfold CheckGroupWideConflicts. apply bind_returns_or_fatal.
  - apply for_each_returns_or_fatal. intros c st.
    apply for_each_returns_or_fatal.
    apply CheckGroupWideConflicts_body_returns_or_fatal.
  - intros st. apply Ret_returns_or_fatal.
Qed.

Lemma CheckGroupWideConflicts_fatal ctrs :
  is_fatal (CheckGroupWideConflicts ctrs) ↔
  ¬ (NoDup (host_key <$> group_ports ctrs)
     ∧ NoDup (ctr_key <$> group_ports ctrs)).
Proof.
  rewrite <-CheckGroupWideConflicts_Ret. split.
  - intros Hf. by apply is_fatal_not_Ret.
  - intros Hne. apply not_Ret_is_fatal.
    + apply CheckGroupWideConflicts_returns_or_fatal.
    + by intros [].
Qed.

(** C2. On validated bindings the group-wide check ends in [Fatal] exactly
    when two bindings of the group, at different positions of the combined
    list, share the host port and the protocol suffix or the container
    port and the protocol suffix.  Two containers that each bind host port
    80 over TCP fail with the host-port message; with one of the two on UDP
    the check passes. *)
Theorem CheckGroupWideConflicts_iff_conflict :
  (∀ containers,
     Forall validated (group_ports containers) →
     (is_fatal (CheckGroupWideConflicts containers) ↔
      ∃ i j p q, i ≠ j
        ∧ group_ports containers !! i = Some p
        ∧ group_ports containers !! j = Some q
        ∧ conflict p q))
  ∧ (∀ c1 c2 x y,
       ports c1 = [(80%Z, x, "")] → ports c2 = [(80%Z, y, "")] →
       CheckGroupWideConflicts [c1; c2]
       = Fatal "host port 80 is not unique group-wide")
  ∧ (∀ c1 c2 x y,
       ports c1 = [(80%Z, x, "")] → ports c2 = [(80%Z, y, "/udp")] →
       CheckGroupWideConflicts [c1; c2] = Ret ()).
Proof.
  split_and!.
  - intros ctrs Hval. rewrite CheckGroupWideConflicts_fatal.
    rewrite Forall_forall in Hval.
    assert (Hin : ∀ i p, group_ports ctrs !! i = Some p → validated p).
    { intros i p Hi. apply Hval, list_elem_of_lookup. eauto. }
    split.
    + intros Hnot.
      destruct (decide (NoDup (host_key <$> group_ports ctrs))) as [Hh|Hh].
      * assert (Hc : ¬ NoDup (ctr_key <$> group_ports ctrs)) by tauto.
        apply not_NoDup_fmap in Hc as (i & j & p & q & Hij & Hi & Hj & Hk).
        exists i, j, p, q. split_and!; [done..|]. right.
        apply ctr_key_inj; eauto.
      * apply not_NoDup_fmap in Hh as (i & j & p & q & Hij & Hi & Hj & Hk).
        exists i, j, p, q. split_and!; [done..|]. left.
        apply host_key_inj; eauto.
    + intros (i & j & p & q & Hij & Hi & Hj & [[Hp Hs]|[Hp Hs]]) [Hh Hc].
      * apply (proj2 (not_NoDup_fmap host_key (group_ports ctrs))); [|done].
        exists i, j, p, q. split_and!; [done..|].
        unfold host_key. by rewrite Hp, Hs.
      * apply (proj2 (not_NoDup_fmap ctr_key (group_ports ctrs))); [|done].
        exists i, j, p, q. split_and!; [done..|].
        unfold ctr_key. by rewrite Hp, Hs.
  - intros c1 c2 x y H1 H2. unfold CheckGroupWideConflicts. simpl.
    rewrite H1, H2. simpl.
    rewrite (proj2 (CheckGroupWideConflicts_body_Ret (80%Z, x, "") (∅, ∅) _))
      by (split_and!; [apply not_elem_of_empty..|done]).
    simpl. rewrite CheckGroupWideConflicts_body_host_dup; [done|].
    simpl. apply elem_of_union. right. by apply elem_of_singleton.
  - intros c1 c2 x y H1 H2. apply CheckGroupWideConflicts_Ret.
    unfold group_ports. simpl. rewrite H1, H2. simpl.
    split; apply NoDup_cons; (split; [|apply NoDup_singleton]);
      rewrite list_elem_of_singleton; intros Hk;
      apply numeral_suffix_inj in Hk as [_ [=]];
      auto using pretty_Z_numeral.
Qed.

Lemma CheckGroupWideConflicts_iff_conflict_witness :
  let containers :=
    [set_ports [(80, 80, "")%Z] (Container_init "web" "nginx");
     set_ports [(80, 8080, "")%Z; (53, 53, "/udp")%Z]
       (Container_init "dns" "bind")] in
  Forall validated (group_ports containers)
  ∧ (is_fatal (CheckGroupWideConflicts containers) ↔
     ∃ i j p q, i ≠ j
       ∧ group_ports containers !! i = Some p
       ∧ group_ports containers !! j = Some q
       ∧ conflict p q).
Proof.
  assert (Hval : Forall validated
    (group_ports
       [set_ports [(80, 80, "")%Z] (Container_init "web" "nginx");
        set_ports [(80, 8080, "")%Z; (53, 53, "/udp")%Z]
          (Container_init "dns" "bind")])).
  { unfold group_ports. simpl.
    repeat (apply Forall_cons; split; [unfold validated; simpl; auto|]).
    constructor. }
  split; [exact Hval|].
  exact (proj1 CheckGroupWideConflicts_iff_conflict _ Hval).
Defined.

(** ** The ports sub-pass *)

Lemma NoDup_snoc {A} (l : list A) x : NoDup (l ++ [x]) ↔ (x ∉ l) ∧ NoDup l.
Proof.
  rewrite NoDup_app. split.
  - intros (Hl & Hx & _). split; [|done]. intros Hin.
    apply (Hx x Hin). by apply list_elem_of_singleton.
  - intros [Hx Hl]. split_and!; [done| |apply NoDup_singleton].
    by intros y Hy ->%list_elem_of_singleton.
Qed.

Lemma LoadPorts_body_Ret n i p st st' :
  LoadPorts_body n i p st = Ret st' ↔
  port_entry_ok p = true
  ∧ (∀ nm, ps_name p = Some nm → nm ∉ all_port_names st)
  ∧ (host_port_of p ∉ all_host_port_nums st)
  ∧ st' = {| all_ports := all_ports st ++ [port_of p];
             all_port_names := all_port_names st ++ option_list (ps_name p);
             all_host_port_nums :=
               all_host_port_nums st ++ [host_port_of p] |}.
Proof.
  unfold LoadPorts_body, port_entry_ok, host_port_of, port_of.
  destruct p as [[nm|] [cp|] [hp|] [pr|]]; simpl;
    repeat first
      [ case_bool_decide
      | match goal with
        | |- context [negb ?b] => destruct b eqn:?; simpl
        end ];
    (split;
     [ try discriminate; intros [= <-]; rewrite ?app_nil_r;
       split_and!; try done; by intros ? [= <-]
     | intros (Hok & Hnm & Hh & ->); rewrite ?app_nil_r; try done;
       try (by destruct (Hnm _ eq_refl)) ]).
Qed.

Lemma LoadPorts_body_returns_or_fatal n i p st :
  returns_or_fatal (LoadPorts_body n i p st).
Proof.
  unfold LoadPorts_body.
  destruct p as [[nm|] [cp|] [hp|] [pr|]]; simpl;
    repeat first
      [ case_bool_decide
      | match goal with
        | |- context [negb ?b] => destruct b eqn:?; simpl
        end ];
    first [apply Ret_returns_or_fatal | right; eexists; reflexivity].
Qed.

Lemma ports_ok_snoc xs x :
  ports_ok (xs ++ [x]) ↔
  ports_ok xs ∧ port_entry_ok x = true
  ∧ (∀ nm, ps_name x = Some nm → nm ∉ omap ps_name xs)
  ∧ (host_port_of x ∉ host_port_of <$> xs).
Proof.
  unfold ports_ok. rewrite Forall_app, Forall_singleton, omap_app, fmap_app.
  simpl. rewrite NoDup_snoc.
  destruct (ps_name x) as [nm|]; simpl.
  - rewrite NoDup_snoc. split.
    + intros ((?&?)&(?&?)&?&?). split_and!; try done. by intros ? [= <-].
    + intros ((?&?&?)&?&Hnm&?). split_and!; try done. by apply Hnm.
  - rewrite app_nil_r. split.
    + intros ((?&?)&?&?&?). split_and!; done.
    + intros ((?&?&?)&?&_&?). split_and!; done.
Qed.

Lemma LoadPorts_loop_Ret n xs st :
  for_enumerate (LoadPorts_body n) 0 xs
    {| all_ports := []; all_port_names := []; all_host_port_nums := [] |}
  = Ret st ↔ ports_ok xs ∧ st = ports_state_of xs.
Proof.
  revert st. induction xs as [|x xs IH] using rev_ind; intros st.
  - simpl. split.
    + intros [= <-]. split; [|done]. split_and!; constructor.
    + by intros [_ ->].
  - rewrite for_enumerate_snoc, bind_Ret, ports_ok_snoc. split.
    + intros (st1 & [Hok ->]%IH & Hbody).
      apply LoadPorts_body_Ret in Hbody as (Hx & Hnm & Hh & ->).
      split_and!; try done.
      unfold ports_state_of. simpl. rewrite omap_app, !fmap_app. simpl.
      by destruct (ps_name x).
    + intros ((Hok & Hx & Hnm & Hh) & ->). exists (ports_state_of xs).
      split; [by apply IH|]. apply LoadPorts_body_Ret.
      split_and!; try done.
      unfold ports_state_of. simpl. rewrite omap_app, !fmap_app. simpl.
      by destruct (ps_name x).
Qed.

Lemma LoadPorts_Ret xs n l :
  LoadPorts xs n = Ret l ↔ ports_ok xs ∧ l = port_of <$> xs.
Proof.
  unfold LoadPorts. rewrite bind_Ret. split.
  - intros (st & [Hok ->]%LoadPorts_loop_Ret & [= <-]). done.
  - intros [Hok ->]. exists (ports_state_of xs). split; [|done].
    by apply LoadPorts_loop_Ret.
Qed.

Lemma LoadPorts_returns_or_fatal xs n : returns_or_fatal (LoadPorts xs n).
Proof.
  unfold LoadPorts. apply bind_returns_or_fatal.
  - apply for_enumerate_returns_or_fatal.
    apply LoadPorts_body_returns_or_fatal.
  - intros st. apply Ret_returns_or_fatal.
Qed.

Lemma LoadPorts_fatal xs n : is_fatal (LoadPorts xs n) ↔ ¬ ports_ok xs.
Proof.
  split.
  - intros Hf Hok. eapply is_fatal_not_Ret; [exact Hf|].
    by apply LoadPorts_Ret.
  - intros Hno. apply not_Ret_is_fatal; [apply LoadPorts_returns_or_fatal|].
    intros l [Hok _]%LoadPorts_Ret. done.
Qed.

(** What goes wrong first once the entries before [p] have loaded. *)
Lemma LoadPorts_app_Ret pre rest n l :
  LoadPorts pre n = Ret l →
  LoadPorts (pre ++ rest) n
  = for_enumerate (LoadPorts_body n) (length pre) rest (ports_state_of pre)
    ≫= λ st, Ret (all_ports st).
Proof.
  intros [Hok _]%LoadPorts_Ret. unfold LoadPorts.
  rewrite for_enumerate_app.
  by rewrite (proj2 (LoadPorts_loop_Ret n pre _) (conj Hok eq_refl)).
Qed.

Lemma ports_ok_entry xs p :
  ports_ok xs → p ∈ xs → port_entry_ok p = true.
Proof. intros (Hall & _ & _) Hp. rewrite Forall_forall in Hall. auto. Qed.

Lemma IsValidProtocol_iff proto :
  IsValidProtocol proto = true ↔ proto = "TCP" ∨ proto = "UDP".
Proof.
  unfold IsValidProtocol, VALID_PROTOCOLS. rewrite bool_decide_eq_true.
  rewrite !elem_of_cons, elem_of_nil. tauto.
Qed.

Lemma LoadPorts_host_dup pre p post n l c :
  LoadPorts pre n = Ret l →
  (∀ nm, ps_name p = Some nm →
         IsRfc1035Name nm = true ∧ nm ∉ omap ps_name pre) →
  ps_containerPort p = Some c → IsValidPort c = true →
  IsValidPort (host_port_of p) = true →
  host_port_of p ∈ (λ t : port, t.1.1) <$> l →
  LoadPorts (pre ++ p :: post) n
  = Fatal ("containers[" +:+ n +:+ "].ports["
           +:+ default (pretty (length pre)) (ps_name p)
           +:+ "].hostPort is not unique: " +:+ pretty (host_port_of p)).
Proof.
  intros Hpre Hnm Hc Hcv Hhv Hin.
  rewrite (LoadPorts_app_Ret _ _ _ _ Hpre).
  apply LoadPorts_Ret in Hpre as [_ ->].
  rewrite <-list_fmap_compose in Hin.
  change ((λ t : port, t.1.1) ∘ port_of) with host_port_of in Hin.
  cbn [for_enumerate].
  assert (LoadPorts_body n (length pre) p (ports_state_of pre)
          = Fatal ("containers[" +:+ n +:+ "].ports["
                   +:+ default (pretty (length pre)) (ps_name p)
                   +:+ "].hostPort is not unique: "
                   +:+ pretty (host_port_of p))) as ->; [|done].
  unfold LoadPorts_body, ports_state_of. cbn [all_host_port_nums all_port_names].
  remember (host_port_of <$> pre) as hs eqn:Hhs. clear Hhs.
  unfold host_port_of in *.
  destruct p as [[nm|] cp hp pr]; simpl in *; subst cp; simpl in *.
  - destruct (Hnm nm eq_refl) as [-> Hfresh]. simpl.
    rewrite (bool_decide_eq_false_2 _ Hfresh). simpl. rewrite Hcv. simpl.
    rewrite Hhv. simpl. by rewrite (bool_decide_eq_true_2 _ Hin).
  - rewrite Hcv. simpl. rewrite Hhv. simpl.
    by rewrite (bool_decide_eq_true_2 _ Hin).
Qed.

(** C7. The ports sub-pass.  An entry without [containerPort], with a
    [containerPort] or a [hostPort] out of range, with a host port that
    another entry of the same container has, or with a protocol other than
    TCP and UDP makes the pass end in [Fatal]; a host port met again after
    entries that loaded is reported as not unique.  The pass returns
    exactly when every entry is well formed and port names and host ports
    are unique, and then the result lists, in entry order, the bindings
    (host port, container port, suffix), where the host port is
    [hostPort] or else [containerPort] and the suffix is that of
    [protocol] or else of TCP. *)
Theorem LoadPorts_contract (ports_spec : list port_spec) (ctr_name : string) :
  (∀ p, p ∈ ports_spec → ps_containerPort p = None →
        is_fatal (LoadPorts ports_spec ctr_name))
  ∧ (∀ p c, p ∈ ports_spec → ps_containerPort p = Some c →
            IsValidPort c = false → is_fatal (LoadPorts ports_spec ctr_name))
  ∧ (∀ p h, p ∈ ports_spec → ps_hostPort p = Some h →
            IsValidPort h = false → is_fatal (LoadPorts ports_spec ctr_name))
  ∧ (∀ i j p q, i ≠ j →
       ports_spec !! i = Some p → ports_spec !! j = Some q →
       host_port_of p = host_port_of q →
       is_fatal (LoadPorts ports_spec ctr_name))
  ∧ (∀ pre p post l c,
       ports_spec = pre ++ p :: post →
       LoadPorts pre ctr_name = Ret l →
       (∀ nm, ps_name p = Some nm →
              IsRfc1035Name nm = true ∧ nm ∉ omap ps_name pre) →
       ps_containerPort p = Some c → IsValidPort c = true →
       IsValidPort (host_port_of p) = true →
       host_port_of p ∈ (λ t : port, t.1.1) <$> l →
       LoadPorts ports_spec ctr_name
       = Fatal ("containers[" +:+ ctr_name +:+ "].ports["
                +:+ default (pretty (length pre)) (ps_name p)
                +:+ "].hostPort is not unique: "
                +:+ pretty (host_port_of p)))
  ∧ (∀ p proto, p ∈ ports_spec → ps_protocol p = Some proto →
                proto ≠ "TCP" → proto ≠ "UDP" →
                is_fatal (LoadPorts ports_spec ctr_name))
  ∧ (ports_ok ports_spec ↔ ∃ l, LoadPorts ports_spec ctr_name = Ret l)
  ∧ (∀ l, LoadPorts ports_spec ctr_name = Ret l →
          Forall2
            (λ p t, ∃ c, ps_containerPort p = Some c
                         ∧ t = (default c (ps_hostPort p), c,
                                ProtocolString
                                  (default "TCP" (ps_protocol p))))
            ports_spec l)
  ∧ ProtocolString "TCP" = "" ∧ ProtocolString "UDP" = "/udp".
Proof.
  assert (Hbad : ∀ p, p ∈ ports_spec → port_entry_ok p = false →
                      is_fatal (LoadPorts ports_spec ctr_name)).
  { intros p Hp Hno. apply LoadPorts_fatal. intros Hok.
    by rewrite (ports_ok_entry _ _ Hok Hp) in Hno. }
  split_and!.
  - intros p Hp Hc. apply (Hbad p Hp). unfold port_entry_ok.
    rewrite Hc. simpl. by rewrite andb_false_r.
  - intros p c Hp Hc Hv. apply (Hbad p Hp). unfold port_entry_ok.
    rewrite Hc. simpl. by rewrite Hv, andb_false_r.
  - intros p h Hp Hh Hv. apply (Hbad p Hp). unfold port_entry_ok.
    rewrite Hh. simpl. by rewrite Hv, andb_false_r.
  - intros i j p q Hij Hi Hj Hpq. apply LoadPorts_fatal.
    intros (_ & _ & Hnd). revert Hnd. apply not_NoDup_fmap. eauto 10.
  - intros pre p post l c ->. apply LoadPorts_host_dup.
  - intros p proto Hp Hpr H1 H2. apply (Hbad p Hp). unfold port_entry_ok.
    rewrite Hpr. simpl. apply andb_false_iff. right.
    apply not_true_iff_false. rewrite IsValidProtocol_iff. tauto.
  - split.
    + intros Hok. exists (port_of <$> ports_spec). by apply LoadPorts_Ret.
    + intros [l [Hok _]%LoadPorts_Ret]. done.
  - intros l [Hok ->]%LoadPorts_Ret. apply Forall2_fmap_r, Forall_Forall2_diag.
    apply Forall_forall. intros p Hp.
    pose proof (ports_ok_entry _ _ Hok Hp) as Hentry.
    unfold port_entry_ok in Hentry. unfold port_of, host_port_of. simpl.
    destruct (ps_containerPort p) as [c|] eqn:Hc; simpl in *.
    + by exists c.
    + by rewrite andb_false_r in Hentry.
  - done.
  - done.
Qed.

Lemma LoadPorts_contract_witness :
  let web := {| ps_name := None; ps_containerPort := Some 8080%Z;
                ps_hostPort := Some 80%Z; ps_protocol := None |} in
  let dns := {| ps_name := Some "dns"; ps_containerPort := Some 53%Z;
                ps_hostPort := None; ps_protocol := Some "UDP" |} in
  let again := {| ps_name := None; ps_containerPort := Some 8081%Z;
                  ps_hostPort := Some 80%Z; ps_protocol := Some "UDP" |} in
  LoadPorts [web; dns] "ctr" = Ret [(80, 8080, ""); (53, 53, "/udp")]%Z
  ∧ LoadPorts [web; dns; again] "ctr"
    = Fatal "containers[ctr].ports[2].hostPort is not unique: 80".
Proof.
  intros web dns again. split; [reflexivity|].
  refine (proj1 (proj2 (proj2 (proj2 (proj2
            (LoadPorts_contract [web; dns; again] "ctr")))))
            [web; dns] again [] [(80, 8080, ""); (53, 53, "/udp")]%Z 8081%Z
            _ _ _ _ _ _ _).
  - reflexivity.
  - reflexivity.
  - intros nm [=].
  - reflexivity.
  - reflexivity.
  - reflexivity.
  - simpl. apply elem_of_cons. by left.
Defined.

(** C10. One container, two entries with the same host port, one on TCP
    and one on UDP: the ports sub-pass ends in [Fatal] with the host-port
    uniqueness message, for it compares host port numbers and not
    protocols (any two entries of a container with the same host port are
    fatal).  The group-wide check keys on port and suffix: it passes on the
    same two bindings held by two containers. *)
Theorem LoadPorts_same_host_port_two_protocols :
  (∀ ctr_name h c1 c2,
     IsValidPort h = true → IsValidPort c1 = true → IsValidPort c2 = true →
     LoadPorts
       [ {| ps_name := None; ps_containerPort := Some c1;
            ps_hostPort := Some h; ps_protocol := Some "TCP" |};
         {| ps_name := None; ps_containerPort := Some c2;
            ps_hostPort := Some h; ps_protocol := Some "UDP" |} ] ctr_name
     = Fatal ("containers[" +:+ ctr_name
              +:+ "].ports[1].hostPort is not unique: " +:+ pretty h))
  ∧ (∀ ports_spec ctr_name i j p q,
       i ≠ j → ports_spec !! i = Some p → ports_spec !! j = Some q →
       host_port_of p = host_port_of q →
       is_fatal (LoadPorts ports_spec ctr_name))
  ∧ (∀ ctr1 ctr2 h c1 c2,
       ports ctr1 = [(h, c1, "")] → ports ctr2 = [(h, c2, "/udp")] →
       CheckGroupWideConflicts [ctr1; ctr2] = Ret ()).
Proof.
  split_and!.
  - intros n h c1 c2 Hh H1 H2. unfold LoadPorts. cbn [for_enumerate].
    unfold LoadPorts_body. simpl. rewrite H1, Hh, H2. simpl.
    rewrite bool_decide_eq_true_2; [done|]. apply elem_of_cons. by left.
  - intros xs n i j p q Hij Hi Hj Hpq. apply LoadPorts_fatal.
    intros (_ & _ & Hnd). revert Hnd. apply not_NoDup_fmap. eauto 10.
  - intros ctr1 ctr2 h c1 c2 H1 H2. apply CheckGroupWideConflicts_Ret.
    unfold group_ports. simpl. rewrite H1, H2. simpl.
    split; apply NoDup_cons; (split; [|apply NoDup_singleton]);
      rewrite list_elem_of_singleton; intros Hk;
      apply numeral_suffix_inj in Hk as [_ [=]];
      auto using pretty_Z_numeral.
Qed.

Lemma LoadPorts_same_host_port_two_protocols_witness :
  LoadPorts
    [ {| ps_name := None; ps_containerPort := Some 53%Z;
         ps_hostPort := Some 5353%Z; ps_protocol := Some "TCP" |};
      {| ps_name := None; ps_containerPort := Some 53%Z;
         ps_hostPort := Some 5353%Z; ps_protocol := Some "UDP" |} ] "dns"
  = Fatal ("containers[" +:+ "dns"
           +:+ "].ports[1].hostPort is not unique: " +:+ pretty 5353%Z)
  ∧ CheckGroupWideConflicts
      [set_ports [(5353, 53, "")%Z] (Container_init "a" "img");
       set_ports [(5353, 53, "/udp")%Z] (Container_init "b" "img")]
    = Ret ().
Proof.
  split.
  - apply (proj1 LoadPorts_same_host_port_two_protocols "dns" 5353 53 53)%Z;
      reflexivity.
  - apply (proj2 (proj2 LoadPorts_same_host_port_two_protocols)
             _ _ 5353 53 53)%Z; reflexivity.
Defined.

(** ** The volumes pass *)

Lemma LoadVolumes_body_Ret i vol names names' :
  LoadVolumes_body i vol names = Ret names' ↔
  ∃ vol_name, vs_name vol = Some vol_name
    ∧ IsRfc1035Name vol_name = true
    ∧ (vol_name ∉ names)
    ∧ names' = names ++ [vol_name].
Proof.
  unfold LoadVolumes_body. destruct (vs_name vol) as [vol_name|].
  - destruct (IsRfc1035Name vol_name) eqn:Hname; simpl.
    + case_bool_decide.
      * split; [done|]. by intros (? & [= <-] & _ & ? & _).
      * split; [intros [= <-]; by exists vol_name|].
        by intros (? & [= <-] & _ & _ & ->).
    + split; [done|]. intros (? & [= <-] & ? & _). congruence.
  - split; [done|]. by intros (? & ? & _).
Qed.

Lemma LoadVolumes_Ret volumes all_volumes :
  LoadVolumes volumes = Ret all_volumes →
  all_volumes = omap vs_name volumes
  ∧ Forall (λ v, IsRfc1035Name v = true) all_volumes
  ∧ NoDup all_volumes.
Proof.
  unfold LoadVolumes. revert all_volumes.
  induction volumes as [|vol volumes IH] using rev_ind; intros all_volumes.
  - intros [= <-]. split_and!; constructor.
  - rewrite for_enumerate_snoc, bind_Ret.
    intros (names & (-> & Hall & Hnd)%IH & Hbody).
    apply LoadVolumes_body_Ret in Hbody as (v & Hv & Hname & Hfresh & ->).
    rewrite omap_app. simpl. rewrite Hv. split_and!; [done| |].
    + apply Forall_app. split; [done|]. by apply Forall_singleton.
    + by apply NoDup_snoc.
Qed.

(** ** The mounts sub-pass *)

Lemma LoadVolumeMounts_body_ok all_volumes ctr_name i all_mounts
    (e : string * string * option bool) :
  IsRfc1035Name e.1.1 = true → e.1.1 ∈ all_volumes →
  IsValidPath e.1.2 = Ret true →
  LoadVolumeMounts_body all_volumes ctr_name i (mount_entry e) all_mounts
  = Ret (all_mounts ++ [mount_directive e.1.1 e.1.2 e.2]).
Proof.
  destruct e as [[v p] ro]. simpl. intros Hname Hin Hpath.
  unfold LoadVolumeMounts_body. simpl.
  rewrite Hname, (bool_decide_eq_true_2 _ Hin), Hpath. simpl.
  by destruct ro as [[|]|].
Qed.

Lemma LoadVolumeMounts_loop all_volumes ctr_name entries i all_mounts :
  Forall (λ e : string * string * option bool,
            IsRfc1035Name e.1.1 = true ∧ e.1.1 ∈ all_volumes
            ∧ IsValidPath e.1.2 = Ret true) entries →
  for_enumerate (LoadVolumeMounts_body all_volumes ctr_name) i
    (mount_entry <$> entries) all_mounts
  = Ret (all_mounts
         ++ ((λ e, mount_directive e.1.1 e.1.2 e.2) <$> entries)).
Proof.
  intros Hall. revert i all_mounts.
  induction Hall as [|e entries (Hname & Hin & Hpath) _ IH];
    intros i all_mounts; cbn [fmap list_fmap for_enumerate].
  - by rewrite app_nil_r.
  - rewrite LoadVolumeMounts_body_ok by done. simpl.
    by rewrite IH, <-app_assoc.
Qed.

(** C6. A mount entry that names a declared volume [v] and gives a valid
    path [p] becomes the directive [/export/v:p:rw], or [/export/v:p:ro]
    when [readOnly] is true; [/export] is the volumes root.  Volume
    [vol1] at [/mnt] without [readOnly] gives [/export/vol1:/mnt:rw]. *)
Theorem LoadVolumeMounts_directive :
  (∀ volumes all_volumes ctr_name
     (entries : list (string * string * option bool)),
     LoadVolumes volumes = Ret all_volumes →
     Forall (λ e, e.1.1 ∈ all_volumes ∧ IsValidPath e.1.2 = Ret true)
       entries →
     LoadVolumeMounts (mount_entry <$> entries) all_volumes ctr_name
     = Ret ((λ e, mount_directive e.1.1 e.1.2 e.2) <$> entries))
  ∧ (∀ v p, mount_directive v p None
            = VOLUMES_ROOT_DIR +:+ "/" +:+ v +:+ ":" +:+ p +:+ ":rw"
          ∧ mount_directive v p (Some false)
            = VOLUMES_ROOT_DIR +:+ "/" +:+ v +:+ ":" +:+ p +:+ ":rw"
          ∧ mount_directive v p (Some true)
            = VOLUMES_ROOT_DIR +:+ "/" +:+ v +:+ ":" +:+ p +:+ ":ro")
  ∧ VOLUMES_ROOT_DIR = "/export"
  ∧ LoadVolumeMounts
      [ {| ms_name := Some "vol1"; ms_path := Some "/mnt";
           ms_readOnly := None |} ] ["vol1"] "ctr"
    = Ret ["/export/vol1:/mnt:rw"]
  ∧ LoadVolumeMounts
      [ {| ms_name := Some "vol1"; ms_path := Some "/mnt";
           ms_readOnly := Some true |} ] ["vol1"] "ctr"
    = Ret ["/export/vol1:/mnt:ro"].
Proof.
  split_and!; try reflexivity.
  - intros volumes all_volumes ctr_name entries Hvols Hall.
    apply LoadVolumes_Ret in Hvols as (_ & Hnames & _).
    rewrite Forall_forall in Hnames.
    unfold LoadVolumeMounts. rewrite LoadVolumeMounts_loop; [done|].
    eapply Forall_impl; [exact Hall|]. intros e [Hin Hpath]. auto.
  - intros v p. split_and!; reflexivity.
Qed.

Lemma LoadVolumeMounts_directive_witness :
  LoadVolumes [ {| vs_name := Some "vol1" |}; {| vs_name := Some "logs" |} ]
  = Ret ["vol1"; "logs"]
  ∧ LoadVolumeMounts
      (mount_entry <$> [("vol1", "/mnt", None); ("logs", "/var/log", Some true)])
      ["vol1"; "logs"] "ctr"
    = Ret ((λ e, mount_directive e.1.1 e.1.2 e.2)
           <$> [("vol1", "/mnt", None); ("logs", "/var/log", Some true)]).
Proof.
  split; [reflexivity|].
  apply (proj1 LoadVolumeMounts_directive
           [ {| vs_name := Some "vol1" |}; {| vs_name := Some "logs" |} ]).
  - reflexivity.
  - repeat (apply Forall_cons; split;
            [split; [simpl; by repeat constructor | reflexivity]|]).
    constructor.
Defined.

(** ** The environment sub-pass *)

Lemma LoadEnvVars_body_ok ctr_name i all_env_vars (e : string * string) :
  IsCToken e.1 = true →
  LoadEnvVars_body ctr_name i (env_entry e) all_env_vars
  = Ret (all_env_vars ++ [e.1 +:+ "=" +:+ e.2]).
Proof.
  intros Hkey. unfold LoadEnvVars_body. simpl. by rewrite Hkey.
Qed.

Lemma LoadEnvVars_loop ctr_name entries i all_env_vars :
  Forall (λ e : string * string, IsCToken e.1 = true) entries →
  for_enumerate (LoadEnvVars_body ctr_name) i (env_entry <$> entries)
    all_env_vars
  = Ret (all_env_vars ++ ((λ e, e.1 +:+ "=" +:+ e.2) <$> entries)).
Proof.
  intros Hall. revert i all_env_vars.
  induction Hall as [|e entries Hkey _ IH]; intros i all_env_vars;
    cbn [fmap list_fmap for_enumerate].
  - by rewrite app_nil_r.
  - rewrite LoadEnvVars_body_ok by done. simpl.
    by rewrite IH, <-app_assoc.
Qed.

(** C9. Entries whose keys are C tokens become the assignments [K=V], the
    value as it is, in entry order; nothing asks the keys to differ, and a
    key given twice is assigned twice. *)
Theorem LoadEnvVars_assignments :
  (∀ ctr_name (entries : list (string * string)),
     Forall (λ e, IsCToken e.1 = true) entries →
     LoadEnvVars (env_entry <$> entries) ctr_name
     = Ret ((λ e, e.1 +:+ "=" +:+ e.2) <$> entries))
  ∧ LoadEnvVars [env_entry ("KEY", "value str")] "ctr"
    = Ret ["KEY=value str"]
  ∧ LoadEnvVars [env_entry ("KEY", "a b"); env_entry ("KEY", "c")] "ctr"
    = Ret ["KEY=a b"; "KEY=c"].
Proof.
  split_and!; try reflexivity.
  intros ctr_name entries Hall. unfold LoadEnvVars.
  by rewrite LoadEnvVars_loop.
Qed.

Lemma LoadEnvVars_assignments_witness :
  LoadEnvVars (env_entry <$> [("PATH", "/bin:/usr/bin"); ("_x9", " ");
                              ("PATH", "")]) "ctr"
  = Ret ["PATH=/bin:/usr/bin"; "_x9= "; "PATH="].
Proof.
  apply (proj1 LoadEnvVars_assignments "ctr"
           [("PATH", "/bin:/usr/bin"); ("_x9", " "); ("PATH", "")]).
  repeat (apply Forall_cons; split; [reflexivity|]). constructor.
Defined.

(** ** Validators as functions *)

(** C3. The path validator indexes the first character of its argument and
    raises [IndexError] on the empty string, where the specification has
    it return a boolean; a container whose [workingDir] is empty ends the containers
    pass with that exception and not with [Fatal].  On every other string
    the validator returns a boolean, as the name, token, port and protocol
    validators do on all their inputs. *)
Theorem IsValidPath_empty_raises :
  IsValidPath "" = Raise IndexError
  ∧ LoadUserContainers
      [ {| cs_name := Some "web"; cs_image := Some "nginx";
           cs_command := None; cs_workingDir := Some "";
           cs_ports := None; cs_volumeMounts := None; cs_env := None |} ] []
    = Raise IndexError
  ∧ (∀ c path,
       IsValidPath (String c path)
       = Ret (Ascii.eqb c "/"
              && (String.length (String c path) <=? MAX_PATH_LEN)%nat)).
Proof. split_and!; reflexivity. Qed.

(** C4. The name pattern ends in [$], which also matches just before a
    newline that ends the string: the validator accepts ["a"] followed by
    a newline, which is no label of the grammar (a newline is neither a
    lowercase letter, a digit nor a hyphen), and a container of that name
    loads.  Apart from one such final newline the validator accepts
    exactly the labels of the grammar, and the six names of the
    specification are classified as it says. *)
Theorem IsRfc1035Name_trailing_newline :
  IsRfc1035Name ("a" +:+ String Re.LF "") = true
  ∧ rfc1035_label ("a" +:+ String Re.LF "") = false
  ∧ LoadUserContainers
      [minimal_spec ("a" +:+ String Re.LF "") (Some "nginx")] []
    = Ret [minimal_ctr ("a" +:+ String Re.LF "") "nginx"]
  ∧ (∀ s, IsRfc1035Name s = true ↔
          rfc1035_label s = true
          ∨ ∃ p, s = p +:+ String Re.LF "" ∧ rfc1035_label p = true)
  ∧ IsRfc1035Name "a" = true ∧ IsRfc1035Name "abc-123-def" = true
  ∧ IsRfc1035Name "1" = false ∧ IsRfc1035Name "ab-" = false
  ∧ IsRfc1035Name "A.B" = false ∧ IsRfc1035Name "a_b" = false.
Proof. split_and!; try reflexivity. apply IsRfc1035Name_iff. Qed.

(** ** The containers pass *)

Lemma LoadUserContainers_body_Ret all_volumes i ctr_spec st st' :
  LoadUserContainers_body all_volumes i ctr_spec st = Ret st' →
  ∃ ctr, loads_as all_volumes ctr_spec ctr
    ∧ (name ctr ∉ all_ctr_names st)
    ∧ st' = {| all_ctrs := all_ctrs st ++ [ctr];
               all_ctr_names := all_ctr_names st ++ [name ctr] |}.
Proof.
  unfold LoadUserContainers_body.
  destruct (cs_name ctr_spec) as [ctr_name|] eqn:Hname; [|done].
  destruct (IsRfc1035Name ctr_name) eqn:Hvalid; [|done]. simpl.
  case_bool_decide as Hfresh; [done|].
  destruct (cs_image ctr_spec) as [ctr_image|] eqn:Himage; [|done].
  assert (Hwd : ∀ (o : outcome ()) rest,
            o ≫= rest = Ret st' → o = Ret () ∧ rest () = Ret st').
  { intros [[]| |] rest; by simpl. }
  intros [Hdir Hrest]%Hwd.
  apply bind_Ret in Hrest as (ctr_ports & Hports & Hrest).
  apply bind_Ret in Hrest as (ctr_mounts & Hmounts & Hrest).
  apply bind_Ret in Hrest as (ctr_env_vars & Henv & Hrest).
  injection Hrest as <-. clear Hwd.
  refine (ex_intro _ _ (conj _ (conj _ eq_refl))); [|done].
  exists ctr_name, ctr_image. split_and!; try done.
  intros wd Hwd'. rewrite Hwd' in Hdir.
  destruct (IsValidPath wd) as [[|]| |]; by simpl in Hdir.
Qed.

Lemma LoadUserContainers_loop_Ret all_volumes containers st :
  for_enumerate (LoadUserContainers_body all_volumes) 0 containers
    {| all_ctrs := []; all_ctr_names := [] |} = Ret st →
  Forall2 (loads_as all_volumes) containers (all_ctrs st)
  ∧ NoDup (name <$> all_ctrs st)
  ∧ all_ctr_names st = name <$> all_ctrs st.
Proof.
  revert st. induction containers as [|c containers IH] using rev_ind;
    intros st.
  - intros [= <-]. simpl. split_and!; constructor.
  - rewrite for_enumerate_snoc, bind_Ret.
    intros (st1 & (Hall & Hnd & Hnames)%IH & Hbody).
    apply LoadUserContainers_body_Ret in Hbody as (ctr & Hctr & Hfresh & ->).
    simpl. rewrite fmap_app, Hnames. simpl. split_and!; [|  |done].
    + apply Forall2_app; [done|]. by constructor.
    + apply NoDup_snoc. split; [by rewrite <-Hnames | done].
Qed.

Lemma LoadUserContainers_Ret containers all_volumes users :
  LoadUserContainers containers all_volumes = Ret users →
  Forall2 (loads_as all_volumes) containers users
  ∧ NoDup (name <$> users)
  ∧ for_enumerate (LoadUserContainers_body all_volumes) 0 containers
      {| all_ctrs := []; all_ctr_names := [] |}
    = Ret {| all_ctrs := users; all_ctr_names := name <$> users |}.
Proof.
  unfold LoadUserContainers.
  intros ([ctrs names] & Hloop & [= <-])%bind_Ret.
  destruct (LoadUserContainers_loop_Ret _ _ _ Hloop) as (H1 & H2 & H3).
  simpl in *. by subst names.
Qed.

Lemma LoadUserContainers_body_dup_name all_volumes i c st n :
  cs_name c = Some n → IsRfc1035Name n = true → n ∈ all_ctr_names st →
  LoadUserContainers_body all_volumes i c st
  = Fatal ("containers[" +:+ pretty i +:+ "].name is not unique: " +:+ n).
Proof.
  intros Hn Hvalid Hin. unfold LoadUserContainers_body.
  rewrite Hn, Hvalid. simpl. by rewrite (bool_decide_eq_true_2 _ Hin).
Qed.

Lemma LoadUserContainers_body_no_image all_volumes i c st n :
  cs_name c = Some n → IsRfc1035Name n = true → n ∉ all_ctr_names st →
  cs_image c = None →
  LoadUserContainers_body all_volumes i c st
  = Fatal ("containers[" +:+ n +:+ "] has no image").
Proof.
  intros Hn Hvalid Hfresh Hnone. unfold LoadUserContainers_body.
  rewrite Hn, Hvalid. simpl.
  by rewrite (bool_decide_eq_false_2 _ Hfresh), Hnone.
Qed.

(** What comes of the entry after a prefix that loaded. *)
Lemma LoadUserContainers_app_Ret pre rest all_volumes loaded :
  LoadUserContainers pre all_volumes = Ret loaded →
  LoadUserContainers (pre ++ rest) all_volumes
  = for_enumerate (LoadUserContainers_body all_volumes) (length pre) rest
      {| all_ctrs := loaded; all_ctr_names := name <$> loaded |}
    ≫= λ st, Ret (all_ctrs st).
Proof.
  intros (_ & _ & Hloop)%LoadUserContainers_Ret. unfold LoadUserContainers.
  by rewrite for_enumerate_app, Hloop.
Qed.

Lemma LoadUserContainers_names containers all_volumes users :
  LoadUserContainers containers all_volumes = Ret users →
  Forall (λ ctr, IsRfc1035Name (name ctr) = true ∧ name ctr ≠ ".net"
                 ∧ network_from ctr = Some "container:.net") users.
Proof.
  intros (Hall & _)%LoadUserContainers_Ret.
  induction Hall as [|spec ctr specs ctrs Hctr _ IH]; constructor; [|done].
  destruct Hctr as (n & img & _ & Hvalid & _ & _ & _ & _ & _ & Hn & _ & _
                    & _ & _ & Hnet).
  rewrite Hn. split_and!; try done.
  intros ->. by rewrite IsRfc1035Name_net in Hvalid.
Qed.

Lemma port_of_validated p : port_entry_ok p = true → validated (port_of p).
Proof.
  unfold port_entry_ok, validated, port_of, host_port_of. simpl.
  intros [[[_ Hc]%andb_true_iff Hh]%andb_true_iff Hp]%andb_true_iff.
  destruct (ps_containerPort p) as [c|]; [|done]. simpl in *.
  split_and!; [by destruct (ps_hostPort p)|done|].
  destruct (ps_protocol p) as [proto|]; simpl in *; [|by left].
  apply IsValidProtocol_iff in Hp as [-> | ->]; [by left|by right].
Qed.

Lemma loads_as_names all_volumes containers users :
  Forall2 (loads_as all_volumes) containers users →
  name <$> users = omap cs_name containers.
Proof.
  induction 1 as [|spec ctr specs ctrs Hctr _ IH]; [done|].
  destruct Hctr as (n & img & Hn & _ & _ & _ & _ & _ & _ & Hname & _).
  rewrite fmap_cons, IH, Hname. simpl. by rewrite Hn.
Qed.

Lemma name_set_ports ps (users : list Container) :
  name <$> (set_ports ps <$> users) = name <$> users.
Proof. by rewrite <-list_fmap_compose. Qed.


Lemma LoadUserContainers_minimal ctr_name ctr_image all_volumes :
  IsRfc1035Name ctr_name = true →
  LoadUserContainers [minimal_spec ctr_name (Some ctr_image)] all_volumes
  = Ret [minimal_ctr ctr_name ctr_image].
Proof.
  intros Hvalid. unfold LoadUserContainers. cbn [for_enumerate].
  unfold LoadUserContainers_body. simpl. by rewrite Hvalid.
Qed.

(** ** The namespace holder *)

Lemma LoadInfraContainers_fold seen rest net_ctr :
  fold_left
    (λ '(net_ctr, store) user_ctr,
       match store !! user_ctr with
       | Some obj =>
           (set_ports (ports net_ctr ++ ports obj) net_ctr,
            <[user_ctr := set_ports [] obj]> store)
       | None => (net_ctr, store)
       end)
    (seq (length seen) (length rest)) (net_ctr, seen ++ rest)
  = (set_ports (ports net_ctr ++ group_ports rest) net_ctr,
     seen ++ (set_ports [] <$> rest)).
Proof.
  revert seen net_ctr. induction rest as [|u rest IH]; intros seen net_ctr.
  - simpl. rewrite !app_nil_r. by destruct net_ctr.
  - cbn [length seq fold_left].
    rewrite list_lookup_middle by done.
    rewrite insert_app_r_alt, Nat.sub_diag by done. cbn [insert list_insert].
    rewrite (cons_middle _ seen rest).
    replace (S (length seen)) with (length (seen ++ [set_ports [] u]))
      by (rewrite length_app; simpl; lia).
    rewrite (app_assoc seen [set_ports [] u] rest), IH. simpl. f_equal.
    + change (group_ports (u :: rest)) with (ports u ++ group_ports rest).
      by rewrite app_assoc.
    + by rewrite <-app_assoc.
Qed.

Lemma LoadInfraContainers_eq users :
  LoadInfraContainers (seq 0 (length users)) users
  = ([net_ctr_with (group_ports users)], set_ports [] <$> users).
Proof.
  unfold LoadInfraContainers.
  by rewrite (LoadInfraContainers_fold [] users).
Qed.

(** An object listed twice gives its bindings once. *)
Lemma LoadInfraContainers_same_object :
  LoadInfraContainers [0; 0]
    [set_ports [(80, 8080, "")%Z] (Container_init "web" "nginx")]
  = ([net_ctr_with [(80, 8080, "")%Z]],
     [set_ports [] (Container_init "web" "nginx")]).
Proof. reflexivity. Qed.

Lemma omap_lookup_seq_app {A} (seen rest : list A) :
  omap (λ i, (seen ++ rest) !! i) (seq (length seen) (length rest)) = rest.
Proof.
  revert seen. induction rest as [|x rest IH]; intros seen; [done|].
  cbn [length seq omap list_omap]. rewrite list_lookup_middle by done.
  f_equal. rewrite (cons_middle x seen rest), (app_assoc seen [x] rest).
  replace (S (length seen)) with (length (seen ++ [x]))
    by (rewrite length_app; simpl; lia).
  apply IH.
Qed.

Lemma omap_lookup_seq {A} (l : list A) :
  omap (λ i, l !! i) (seq 0 (length l)) = l.
Proof. apply (omap_lookup_seq_app [] l). Qed.

(** ** main *)

Lemma main_Some config group :
  main config = Ret (Some group) ↔
  ∃ all_volumes users,
    CheckVersion config = Ret ()
    ∧ LoadVolumes (default [] (cfg_volumes config)) = Ret all_volumes
    ∧ LoadUserContainers (default [] (cfg_containers config)) all_volumes
      = Ret users
    ∧ CheckGroupWideConflicts users = Ret ()
    ∧ users ≠ []
    ∧ group = net_ctr_with (group_ports users) :: (set_ports [] <$> users).
Proof.
  assert (Hgroup : ∀ u users,
    (let '(infra_containers, store) :=
       LoadInfraContainers (seq 0 (length (u :: users))) (u :: users) in
     Ret (Some (infra_containers
                ++ omap (λ user_ctr, store !! user_ctr)
                     (seq 0 (length (u :: users))))))
    = Ret (Some (net_ctr_with (group_ports (u :: users))
                 :: (set_ports [] <$> u :: users)))).
  { intros u users. rewrite LoadInfraContainers_eq.
    rewrite <-(length_fmap (set_ports []) (u :: users)).
    by rewrite omap_lookup_seq. }
  unfold main. split.
  - intros ([] & Hver & Hrest)%bind_Ret.
    apply bind_Ret in Hrest as (all_volumes & Hvols & Hrest).
    apply bind_Ret in Hrest as (users & Husers & Hrest).
    apply bind_Ret in Hrest as ([] & Hcheck & Hrest).
    exists all_volumes, users.
    destruct users as [|u users]; [done|].
    change (match seq 0 (length (u :: users)) with
            | [] => Ret None
            | _ :: _ =>
                let '(infra_containers, store) :=
                  LoadInfraContainers (seq 0 (length (u :: users)))
                    (u :: users) in
                Ret (Some (infra_containers
                           ++ omap (λ user_ctr, store !! user_ctr)
                                (seq 0 (length (u :: users)))))
            end)
      with (let '(infra_containers, store) :=
              LoadInfraContainers (seq 0 (length (u :: users)))
                (u :: users) in
            Ret (Some (infra_containers
                       ++ omap (λ user_ctr, store !! user_ctr)
                            (seq 0 (length (u :: users))))) : outcome _)
      in Hrest.
    rewrite Hgroup in Hrest. injection Hrest as <-. done.
  - intros (all_volumes & users & -> & -> & Husers & Hcheck & Hne & ->).
    simpl. rewrite Husers. simpl. rewrite Hcheck.
    destruct users as [|u users]; [done|]. apply Hgroup.
Qed.

(** C1. When [main] reaches the launch, the group it hands over is the
    namespace holder [.net] followed by the user containers in manifest
    order; the holder has the bindings the ports sub-pass returned for
    the user containers, one container after the other, every user
    container is left without bindings and joins the network of
    [container:.net].  A manifest of one container with a name and an image
    and nothing else resolves to the holder, without bindings, and that
    container. *)
Theorem main_group_resolution :
  (∀ config group,
     main config = Ret (Some group) →
     ∃ all_volumes users holder,
       LoadVolumes (default [] (cfg_volumes config)) = Ret all_volumes
       ∧ LoadUserContainers (default [] (cfg_containers config)) all_volumes
         = Ret users
       ∧ users ≠ []
       ∧ Forall2 (loads_as all_volumes) (default [] (cfg_containers config))
           users
       ∧ group = holder :: (set_ports [] <$> users)
       ∧ name holder = ".net"
       ∧ ports holder = group_ports users
       ∧ Forall (λ ctr, ports ctr = []
                        ∧ network_from ctr
                          = Some ("container:" +:+ name holder))
           (set_ports [] <$> users)
       ∧ name <$> (set_ports [] <$> users)
         = omap cs_name (default [] (cfg_containers config)))
  ∧ (∀ config all_volumes users,
       CheckVersion config = Ret () →
       LoadVolumes (default [] (cfg_volumes config)) = Ret all_volumes →
       LoadUserContainers (default [] (cfg_containers config)) all_volumes
       = Ret users →
       CheckGroupWideConflicts users = Ret () →
       users ≠ [] →
       main config
       = Ret (Some (net_ctr_with (group_ports users)
                    :: (set_ports [] <$> users))))
  ∧ (∀ ctr_name ctr_image,
       IsRfc1035Name ctr_name = true →
       main {| cfg_version := Some "v1beta1"; cfg_volumes := None;
               cfg_containers :=
                 Some [minimal_spec ctr_name (Some ctr_image)] |}
       = Ret (Some [net_ctr_with []; minimal_ctr ctr_name ctr_image])).
Proof.
  split_and!.
  - intros config group
      (all_volumes & users & _ & Hvols & Husers & _ & Hne & ->)%main_Some.
    exists all_volumes, users, (net_ctr_with (group_ports users)).
    pose proof (LoadUserContainers_names _ _ _ Husers) as Hnames.
    destruct (LoadUserContainers_Ret _ _ _ Husers) as (Hall & _ & _).
    split_and!; try done.
    + apply Forall_fmap. eapply Forall_impl; [exact Hnames|].
      intros ctr (_ & _ & Hnet). done.
    + rewrite name_set_ports. by eapply loads_as_names.
  - intros config all_volumes users Hver Hvols Husers Hcheck Hne.
    apply main_Some. exists all_volumes, users. done.
  - intros ctr_name ctr_image Hvalid. apply main_Some.
    exists [], [minimal_ctr ctr_name ctr_image]. split_and!; try done.
    by apply LoadUserContainers_minimal.
Qed.

Lemma main_group_resolution_witness :
  let config :=
    {| cfg_version := Some "v1beta1"; cfg_volumes := None;
       cfg_containers := Some [minimal_spec "web" (Some "nginx")] |} in
  main config = Ret (Some [net_ctr_with []; minimal_ctr "web" "nginx"])
  ∧ ∃ all_volumes users holder,
      LoadVolumes (default [] (cfg_volumes config)) = Ret all_volumes
      ∧ LoadUserContainers (default [] (cfg_containers config)) all_volumes
        = Ret users
      ∧ users ≠ []
      ∧ Forall2 (loads_as all_volumes) (default [] (cfg_containers config))
          users
      ∧ [net_ctr_with []; minimal_ctr "web" "nginx"]
        = holder :: (set_ports [] <$> users)
      ∧ name holder = ".net"
      ∧ ports holder = group_ports users
      ∧ Forall (λ ctr, ports ctr = []
                       ∧ network_from ctr
                         = Some ("container:" +:+ name holder))
          (set_ports [] <$> users)
      ∧ name <$> (set_ports [] <$> users)
        = omap cs_name (default [] (cfg_containers config)).
Proof.
  intros config.
  assert (Hmain : main config
                  = Ret (Some [net_ctr_with []; minimal_ctr "web" "nginx"])).
  { apply (proj2 (proj2 main_group_resolution) "web" "nginx"). reflexivity. }
  split; [exact Hmain|].
  exact (proj1 main_group_resolution config _ Hmain).
Defined.

(** C5. The names of a group that [main] launches are pairwise distinct.
    The containers pass returns containers with distinct names, each of
    which the name validator accepts and which therefore differs from
    [.net], the name of the holder, that the validator rejects; an entry
    that repeats the name of a container loaded before it ends the pass in
    [Fatal]. *)
Theorem container_names_unique :
  (∀ config group, main config = Ret (Some group) → NoDup (name <$> group))
  ∧ (∀ containers all_volumes users,
       LoadUserContainers containers all_volumes = Ret users →
       NoDup (name <$> users)
       ∧ Forall (λ ctr, IsRfc1035Name (name ctr) = true
                        ∧ name ctr ≠ ".net") users)
  ∧ IsRfc1035Name ".net" = false
  ∧ (∀ pre c post all_volumes loaded n,
       LoadUserContainers pre all_volumes = Ret loaded →
       cs_name c = Some n → IsRfc1035Name n = true →
       n ∈ name <$> loaded →
       LoadUserContainers (pre ++ c :: post) all_volumes
       = Fatal ("containers[" +:+ pretty (length pre)
                +:+ "].name is not unique: " +:+ n)).
Proof.
  assert (Husers : ∀ containers all_volumes users,
    LoadUserContainers containers all_volumes = Ret users →
    NoDup (name <$> users)
    ∧ Forall (λ ctr, IsRfc1035Name (name ctr) = true
                     ∧ name ctr ≠ ".net") users).
  { intros containers all_volumes users Hload. split.
    - by destruct (LoadUserContainers_Ret _ _ _ Hload) as (_ & ? & _).
    - eapply Forall_impl; [by eapply LoadUserContainers_names|].
      intros ctr (? & ? & _). done. }
  split_and!; [|exact Husers|reflexivity|].
  - intros config group
      (all_volumes & users & _ & _ & Hload & _ & _ & ->)%main_Some.
    destruct (Husers _ _ _ Hload) as [Hnd Hall].
    rewrite fmap_cons, name_set_ports. apply NoDup_cons. split; [|done].
    simpl. intros (ctr & Hname & Hin)%list_elem_of_fmap.
    rewrite Forall_forall in Hall. by destruct (Hall ctr Hin) as [_ []].
  - intros pre c post all_volumes loaded n Hpre Hn Hvalid Hin.
    rewrite (LoadUserContainers_app_Ret _ _ _ _ Hpre). cbn [for_enumerate].
    by rewrite (LoadUserContainers_body_dup_name _ _ _ _ n).
Qed.

Lemma container_names_unique_witness :
  NoDup (name <$> [net_ctr_with []; minimal_ctr "web" "nginx"])
  ∧ LoadUserContainers
      ([minimal_spec "web" (Some "nginx")]
       ++ minimal_spec "web" (Some "httpd") :: []) []
    = Fatal ("containers[" +:+ pretty 1 +:+ "].name is not unique: "
             +:+ "web").
Proof.
  split.
  - apply (proj1 container_names_unique
             {| cfg_version := Some "v1beta1"; cfg_volumes := None;
                cfg_containers := Some [minimal_spec "web" (Some "nginx")] |}).
    reflexivity.
  - apply (proj2 (proj2 (proj2 container_names_unique))
             [minimal_spec "web" (Some "nginx")] _ [] []
             [minimal_ctr "web" "nginx"] "web").
    + reflexivity.
    + reflexivity.
    + reflexivity.
    + simpl. apply elem_of_cons. by left.
Defined.

(** C8, amended.  An entry with a new valid name and no [image] ends the
    pass in [Fatal], and no list with such an entry loads; an [image] that
    is present is taken as it is, whatever its value, the empty string
    included. *)
Theorem LoadUserContainers_image :
  (∀ pre c post all_volumes loaded n,
     LoadUserContainers pre all_volumes = Ret loaded →
     cs_name c = Some n → IsRfc1035Name n = true →
     n ∉ name <$> loaded →
     cs_image c = None →
     LoadUserContainers (pre ++ c :: post) all_volumes
     = Fatal ("containers[" +:+ n +:+ "] has no image"))
  ∧ (∀ containers all_volumes users c,
       c ∈ containers → cs_image c = None →
       LoadUserContainers containers all_volumes ≠ Ret users)
  ∧ (∀ n img all_volumes,
       IsRfc1035Name n = true →
       LoadUserContainers [minimal_spec n (Some img)] all_volumes
       = Ret [minimal_ctr n img])
  ∧ (∀ containers all_volumes users,
       LoadUserContainers containers all_volumes = Ret users →
       Forall2 (λ spec ctr, cs_image spec = Some (image ctr))
         containers users).
Proof.
  assert (Himg : ∀ containers all_volumes users,
    LoadUserContainers containers all_volumes = Ret users →
    Forall2 (λ spec ctr, cs_image spec = Some (image ctr)) containers users).
  { intros containers all_volumes users (Hall & _)%LoadUserContainers_Ret.
    eapply Forall2_impl; [exact Hall|].
    intros spec ctr (n & img & _ & _ & Himg & _ & _ & _ & _ & _ & Hi & _).
    by rewrite Himg, Hi. }
  split_and!; [| |apply LoadUserContainers_minimal|exact Himg].
  - intros pre c post all_volumes loaded n Hpre Hn Hvalid Hfresh Hnone.
    rewrite (LoadUserContainers_app_Ret _ _ _ _ Hpre). cbn [for_enumerate].
    by rewrite (LoadUserContainers_body_no_image _ _ _ _ n).
  - intros containers all_volumes users c Hc Hnone Hload.
    apply Himg in Hload.
    apply list_elem_of_lookup in Hc as [i Hi].
    destruct (Forall2_lookup_l _ _ _ _ _ Hload Hi) as (ctr & _ & Himage).
    by rewrite Hnone in Himage.
Qed.

Lemma LoadUserContainers_image_witness :
  LoadUserContainers
    ([minimal_spec "web" (Some "")] ++ minimal_spec "db" None :: []) []
  = Fatal ("containers[" +:+ "db" +:+ "] has no image")
  ∧ LoadUserContainers [minimal_spec "web" (Some "")] []
    = Ret [minimal_ctr "web" ""].
Proof.
  split.
  - apply (proj1 LoadUserContainers_image
             [minimal_spec "web" (Some "")] _ [] [] [minimal_ctr "web" ""]
             "db").
    + reflexivity.
    + reflexivity.
    + reflexivity.
    + simpl. by intros [[=]|[]%elem_of_nil]%elem_of_cons.
    + reflexivity.
  - apply (proj1 (proj2 (proj2 LoadUserContainers_image)) "web" "" []).
    reflexivity.
Defined.

(** C8, counterexample: a container whose [image] is the empty string
    loads. *)
Lemma empty_image_is_accepted :
  LoadUserContainers [minimal_spec "web" (Some "")] []
  = Ret [minimal_ctr "web" ""]
  ∧ ¬ is_fatal (LoadUserContainers [minimal_spec "web" (Some "")] []).
Proof. split; [reflexivity|]. by intros [msg [=]]. Qed.

(** * Further properties of the loader *)

(** ** The token validator *)

Lemma class_word c :
  Re.class_mem [lower; upper; digit; Re.Lit "_"] c = word_char c.
Proof.
  unfold Re.class_mem, word_char; cbn [existsb]. by rewrite orb_false_r, !orb_assoc.
Qed.

Lemma class_token_head c :
  Re.class_mem [upper; lower; Re.Lit "_"] c
  = is_upper_letter c || is_lower_letter c || is_underscore c.
Proof.
  unfold Re.class_mem; cbn [existsb]. by rewrite orb_false_r, !orb_assoc.
Qed.

Lemma lang_C_TOKEN l : Re.lang RE_C_TOKEN l ↔ c_token_chars l = true.
Proof.
  unfold RE_C_TOKEN, word. rewrite ReFacts.lang_Cat_inv. split.
  - intros (s1 & t & -> & H1 & Ht).
    apply ReFacts.lang_Class_inv in H1 as (c & -> & Hc).
    apply ReFacts.lang_Star_Class in Ht.
    rewrite class_token_head in Hc. simpl. rewrite Hc. simpl.
    by rewrite <-(ReFacts.forallb_ext _ _ t class_word).
  - destruct l as [|c t]; [done|]. simpl.
    intros [Hc Ht]%andb_true_iff. exists [c], t. split_and!; [done|..].
    + apply ReFacts.lang_Class_inv. exists c. by rewrite class_token_head.
    + apply ReFacts.lang_Star_Class.
      by rewrite (ReFacts.forallb_ext _ _ t class_word).
Qed.

(** X1. The token validator accepts exactly the C identifiers and, because
    the pattern ends in [$], each of them followed by one newline. *)
Theorem IsCToken_iff s :
  IsCToken s = true ↔
  c_token s = true ∨ ∃ p, s = p +:+ String Re.LF "" ∧ c_token p = true.
Proof.
  assert (Hfull : ∀ l, Re.fullmatch RE_C_TOKEN l = c_token_chars l).
  { intros l. apply eq_true_iff_eq. rewrite ReFacts.fullmatch_lang.
    apply lang_C_TOKEN. }
  unfold IsCToken, Re.match_dollar, c_token. rewrite Hfull, orb_true_iff.
  apply or_iff_compat_l. split.
  - destruct (Re.chomp _) as [l'|] eqn:Hl; [|done]. rewrite Hfull.
    intros Hl'. apply chomp_Some in Hl.
    exists (string_of_list_ascii l'). split.
    + rewrite <-(string_of_list_ascii_of_string s), Hl.
      rewrite <-(list_ascii_of_string_of_list_ascii l') at 1.
      change [Re.LF] with (list_ascii_of_string (String Re.LF "")).
      by rewrite <-list_ascii_of_string_app, string_of_list_ascii_of_string.
    + by rewrite list_ascii_of_string_of_list_ascii.
  - intros (p & -> & Hp). rewrite list_ascii_of_string_app.
    change (list_ascii_of_string (String Re.LF "")) with [Re.LF].
    by rewrite (proj2 (chomp_Some _ _) eq_refl), Hfull.
Qed.

(** ** Loops: the first failure is the result *)

Lemma for_enumerate_app_SysExit {St A} (body : nat → A → St → outcome St)
    i xs ys st err_str :
  for_enumerate body i xs st = SysExit err_str →
  for_enumerate body i (xs ++ ys) st = SysExit err_str.
Proof. intros H. by rewrite for_enumerate_app, H. Qed.

Lemma for_enumerate_app_Raise {St A} (body : nat → A → St → outcome St)
    i xs ys st e :
  for_enumerate body i xs st = Raise e →
  for_enumerate body i (xs ++ ys) st = Raise e.
Proof. intros H. by rewrite for_enumerate_app, H. Qed.

Lemma for_enumerate_app_Ret_inv {St A} (body : nat → A → St → outcome St)
    i xs ys st st' :
  for_enumerate body i (xs ++ ys) st = Ret st' →
  ∃ st1, for_enumerate body i xs st = Ret st1
    ∧ for_enumerate body (i + length xs) ys st1 = Ret st'.
Proof. rewrite for_enumerate_app. apply bind_Ret. Qed.

(** A loop that appends one item per entry returns the items of all. *)
Lemma for_enumerate_append {A B} (body : nat → A → list B → outcome (list B))
    (R : A → B → Prop) :
  (∀ i x acc acc',
     body i x acc = Ret acc' ↔ ∃ y, R x y ∧ acc' = acc ++ [y]) →
  ∀ xs i acc acc',
    for_enumerate body i xs acc = Ret acc' ↔
    ∃ ys, Forall2 R xs ys ∧ acc' = acc ++ ys.
Proof.
  intros Hbody xs. induction xs as [|x xs IH]; intros i acc acc'; simpl.
  - split.
    + intros [= <-]. exists []. by rewrite app_nil_r.
    + intros (ys & ->%Forall2_nil_inv_l & ->). by rewrite app_nil_r.
  - rewrite bind_Ret. split.
    + intros (acc1 & (y & Hy & ->)%Hbody & (ys & Hys & ->)%IH).
      exists (y :: ys). split; [by constructor|]. by rewrite <-app_assoc.
    + intros (ys & (y & ys' & Hy & Hys & ->)%Forall2_cons_inv_l & ->).
      exists (acc ++ [y]). split.
      * apply Hbody. eauto.
      * apply IH. exists ys'. split; [done|]. by rewrite <-app_assoc.
Qed.

(** ** The volumes pass *)



(** X3. What the volumes pass reports for the first bad entry, met at
    position [length pre] after entries that loaded: a missing name, a
    name the validator rejects, or a name already declared.  Entries after
    it are not looked at. *)
Theorem LoadVolumes_first_error pre vol post names :
  LoadVolumes pre = Ret names →
  (vs_name vol = None →
   LoadVolumes (pre ++ vol :: post)
   = Fatal ("volumes[" +:+ pretty (length pre) +:+ "] has no name"))
  ∧ (∀ n, vs_name vol = Some n → IsRfc1035Name n = false →
          LoadVolumes (pre ++ vol :: post)
          = Fatal ("volumes[" +:+ pretty (length pre)
                   +:+ "].name is invalid: " +:+ n))
  ∧ (∀ n, vs_name vol = Some n → IsRfc1035Name n = true → n ∈ names →
          LoadVolumes (pre ++ vol :: post)
          = Fatal ("volumes[" +:+ pretty (length pre)
                   +:+ "].name is not unique: " +:+ n)).
Proof.
  intros Hpre.
  assert (Hstep : ∀ o,
    LoadVolumes_body (length pre) vol names = SysExit o →
    LoadVolumes (pre ++ vol :: post) = SysExit o).
  { intros o Hbody. unfold LoadVolumes in *.
    rewrite for_enumerate_app, Hpre. simpl. by rewrite Hbody. }
  split_and!.
  - intros Hn. apply Hstep. unfold LoadVolumes_body. by rewrite Hn.
  - intros n Hn Hvalid. apply Hstep. unfold LoadVolumes_body.
    by rewrite Hn, Hvalid.
  - intros n Hn Hvalid Hin. apply Hstep. unfold LoadVolumes_body.
    rewrite Hn, Hvalid. simpl. by rewrite (bool_decide_eq_true_2 _ Hin).
Qed.

Lemma LoadVolumes_first_error_witness :
  LoadVolumes [ {| vs_name := Some "data" |} ] = Ret ["data"]
  ∧ LoadVolumes ([ {| vs_name := Some "data" |} ]
                 ++ {| vs_name := Some "data" |}
                 :: [ {| vs_name := None |} ])
    = Fatal ("volumes[" +:+ pretty 1 +:+ "].name is not unique: " +:+ "data").
Proof.
  split; [reflexivity|].
  apply (proj2 (proj2 (LoadVolumes_first_error
           [ {| vs_name := Some "data" |} ] {| vs_name := Some "data" |}
           [ {| vs_name := None |} ] ["data"] eq_refl)) "data").
  - reflexivity.
  - reflexivity.
  - apply elem_of_cons. by left.
Defined.

(** ** The ports sub-pass: what it returns and what it reports *)

(** X4. The bindings the ports sub-pass returns are one per entry, have
    both ports in range and the suffix of TCP or UDP, and no two of them
    have the same host port. *)
Theorem LoadPorts_output ports_spec ctr_name l :
  LoadPorts ports_spec ctr_name = Ret l →
  length l = length ports_spec
  ∧ Forall validated l
  ∧ NoDup ((λ t : port, t.1.1) <$> l).
Proof.
  intros [(Hall & _ & Hnd) ->]%LoadPorts_Ret. split_and!.
  - apply length_fmap.
  - apply Forall_fmap. eapply Forall_impl; [exact Hall|].
    intros p. apply port_of_validated.
  - by rewrite <-list_fmap_compose.
Qed.

Lemma LoadPorts_output_witness :
  length [(80, 8080, ""); (53, 53, "/udp")]%Z = 2
  ∧ Forall validated [(80, 8080, ""); (53, 53, "/udp")]%Z
  ∧ NoDup ((λ t : port, t.1.1) <$> [(80, 8080, ""); (53, 53, "/udp")]%Z).
Proof.
  apply (LoadPorts_output
           [ {| ps_name := None; ps_containerPort := Some 8080%Z;
                ps_hostPort := Some 80%Z; ps_protocol := None |};
             {| ps_name := Some "dns"; ps_containerPort := Some 53%Z;
                ps_hostPort := None; ps_protocol := Some "UDP" |} ] "ctr").
  reflexivity.
Defined.

Lemma LoadPorts_app_SysExit pre p post n l err_str :
  LoadPorts pre n = Ret l →
  LoadPorts_body n (length pre) p (ports_state_of pre) = SysExit err_str →
  LoadPorts (pre ++ p :: post) n = SysExit err_str.
Proof.
  intros Hpre Hbody. rewrite (LoadPorts_app_Ret _ _ _ _ Hpre).
  cbn [for_enumerate]. by rewrite Hbody.
Qed.

(** X5. What the ports sub-pass reports for the first bad entry, met at
    position [length pre] after entries that loaded.  The container is
    named in the message; the entry is known by its position while its
    name is checked and afterwards by its name, or by its position when it
    has none. *)
Theorem LoadPorts_first_error pre p post ctr_name l :
  LoadPorts pre ctr_name = Ret l →
  (∀ nm, ps_name p = Some nm → IsRfc1035Name nm = false →
     LoadPorts (pre ++ p :: post) ctr_name
     = Fatal ("containers[" +:+ ctr_name +:+ "].ports["
              +:+ pretty (length pre) +:+ "].name is invalid: " +:+ nm))
  ∧ (∀ nm, ps_name p = Some nm → IsRfc1035Name nm = true →
       nm ∈ omap ps_name pre →
       LoadPorts (pre ++ p :: post) ctr_name
       = Fatal ("containers[" +:+ ctr_name +:+ "].ports["
                +:+ pretty (length pre) +:+ "].name is not unique: "
                +:+ nm))
  ∧ ((∀ nm, ps_name p = Some nm →
            IsRfc1035Name nm = true ∧ nm ∉ omap ps_name pre) →
     let label := default (pretty (length pre)) (ps_name p) in
     (ps_containerPort p = None →
      LoadPorts (pre ++ p :: post) ctr_name
      = Fatal ("containers[" +:+ ctr_name +:+ "].ports[" +:+ label
               +:+ "] has no containerPort"))
     ∧ (∀ c, ps_containerPort p = Some c → IsValidPort c = false →
          LoadPorts (pre ++ p :: post) ctr_name
          = Fatal ("containers[" +:+ ctr_name +:+ "].ports[" +:+ label
                   +:+ "].containerPort is invalid: " +:+ pretty c))
     ∧ (∀ c h, ps_containerPort p = Some c → IsValidPort c = true →
          ps_hostPort p = Some h → IsValidPort h = false →
          LoadPorts (pre ++ p :: post) ctr_name
          = Fatal ("containers[" +:+ ctr_name +:+ "].ports[" +:+ label
                   +:+ "].hostPort is invalid: " +:+ pretty h))
     ∧ (∀ c proto, ps_containerPort p = Some c → IsValidPort c = true →
          IsValidPort (host_port_of p) = true →
          host_port_of p ∉ host_port_of <$> pre →
          ps_protocol p = Some proto → IsValidProtocol proto = false →
          LoadPorts (pre ++ p :: post) ctr_name
          = Fatal ("containers[" +:+ ctr_name +:+ "].ports[" +:+ label
                   +:+ "].protocol is invalid: " +:+ proto))).
Proof.
  intros Hpre.
  pose proof (λ e, LoadPorts_app_SysExit pre p post ctr_name l e Hpre) as Hstep.
  unfold LoadPorts_body, ports_state_of in Hstep.
  cbn [all_port_names all_host_port_nums all_ports] in Hstep.
  split_and!.
  - intros nm Hnm Hvalid. apply Hstep. by rewrite Hnm, Hvalid.
  - intros nm Hnm Hvalid Hin. apply Hstep. rewrite Hnm, Hvalid. simpl.
    by rewrite (bool_decide_eq_true_2 _ Hin).
  - intros Hname label.
    assert (Hhead :
      match ps_name p with
      | Some port_name =>
          if negb (IsRfc1035Name port_name) then
            Fatal ("containers[" +:+ ctr_name +:+ "].ports["
                   +:+ pretty (length pre) +:+ "].name is invalid: "
                   +:+ port_name)
          else if bool_decide (port_name ∈ omap ps_name pre) then
            Fatal ("containers[" +:+ ctr_name +:+ "].ports["
                   +:+ pretty (length pre) +:+ "].name is not unique: "
                   +:+ port_name)
          else Ret (port_name, omap ps_name pre ++ [port_name])
      | None => Ret (pretty (length pre), omap ps_name pre)
      end
      = Ret (label, omap ps_name pre ++ option_list (ps_name p))).
    { subst label. destruct (ps_name p) as [nm|]; simpl.
      - destruct (Hname nm eq_refl) as [-> Hfresh]. simpl.
        by rewrite (bool_decide_eq_false_2 _ Hfresh).
      - by rewrite app_nil_r. }
    rewrite Hhead in Hstep. simpl in Hstep. split_and!.
    + intros Hc. apply Hstep. by rewrite Hc.
    + intros c Hc Hcv. apply Hstep. by rewrite Hc, Hcv.
    + intros c h Hc Hcv Hh Hhv. apply Hstep. rewrite Hc, Hcv, Hh. simpl.
      by rewrite Hhv.
    + intros c proto Hc Hcv Hhv Hfresh Hproto Hpv. apply Hstep.
      unfold host_port_of in Hhv, Hfresh. rewrite Hc in *. simpl in *.
      rewrite Hcv. simpl. rewrite Hhv. simpl.
      rewrite (bool_decide_eq_false_2 _ Hfresh), Hproto. simpl.
      by rewrite Hpv.
Qed.

Lemma LoadPorts_first_error_witness :
  LoadPorts [ {| ps_name := Some "web"; ps_containerPort := Some 80%Z;
                 ps_hostPort := None; ps_protocol := None |} ] "ctr"
  = Ret [(80, 80, "")%Z]
  ∧ LoadPorts
      ([ {| ps_name := Some "web"; ps_containerPort := Some 80%Z;
            ps_hostPort := None; ps_protocol := None |} ]
       ++ {| ps_name := None; ps_containerPort := Some 81%Z;
             ps_hostPort := Some 70000%Z; ps_protocol := None |} :: []) "ctr"
    = Fatal ("containers[" +:+ "ctr" +:+ "].ports[" +:+ pretty 1
             +:+ "].hostPort is invalid: " +:+ pretty 70000%Z).
Proof.
  split; [reflexivity|].
  refine (proj1 (proj2 (proj2 (proj2 (proj2 (LoadPorts_first_error
            [ {| ps_name := Some "web"; ps_containerPort := Some 80%Z;
                 ps_hostPort := None; ps_protocol := None |} ]
            {| ps_name := None; ps_containerPort := Some 81%Z;
               ps_hostPort := Some 70000%Z; ps_protocol := None |}
            [] "ctr" [(80, 80, "")%Z] eq_refl)) _)))
            81%Z 70000%Z eq_refl eq_refl eq_refl eq_refl).
  intros nm [=].
Defined.





(** ** The mounts sub-pass *)

Lemma LoadVolumeMounts_body_Ret all_volumes ctr_name i m acc acc' :
  LoadVolumeMounts_body all_volumes ctr_name i m acc = Ret acc' ↔
  ∃ d, mounts_as all_volumes m d ∧ acc' = acc ++ [d].
Proof.
  unfold LoadVolumeMounts_body, mounts_as. split.
  - destruct (ms_name m) as [v|]; [|done].
    destruct (IsRfc1035Name v) eqn:Hv; [|done]. simpl.
    case_bool_decide as Hin; [|done]. simpl.
    destruct (ms_path m) as [p|]; [|done].
    destruct (IsValidPath p) as [[|]| |] eqn:Hp; try done. simpl.
    intros [= <-]. eexists. split; [|done].
    exists v, p. split_and!; try done.
    by destruct (ms_readOnly m) as [[|]|].
  - intros (d & (v & p & -> & -> & Hin & -> & -> & ->) & ->). simpl.
    rewrite (bool_decide_eq_true_2 _ Hin). simpl.
    by destruct (ms_readOnly m) as [[|]|].
Qed.

(** X7. The mounts sub-pass returns exactly when every entry names, with
    a name the validator accepts, a volume of the list it is given and has
    a path the path validator accepts; it then returns the directive of
    each entry, in entry order.  Nothing asks the volumes or the paths of
    two entries to differ. *)
Theorem LoadVolumeMounts_iff mounts_spec all_volumes ctr_name l :
  LoadVolumeMounts mounts_spec all_volumes ctr_name = Ret l ↔
  Forall2 (mounts_as all_volumes) mounts_spec l.
Proof.
  unfold LoadVolumeMounts.
  rewrite (for_enumerate_append _ (mounts_as all_volumes)
             (LoadVolumeMounts_body_Ret all_volumes ctr_name)).
  split; [by intros (ys & ? & ->)|]. intros Hall. by exists l.
Qed.

(** X8. What the mounts sub-pass does at the first bad entry, met at
    position [length pre] after entries that loaded: it reports a missing
    name, a name the validator rejects or an undeclared volume under the
    position of the entry, and a missing or invalid path under the name of
    the volume; the two name messages run [name] and [is] together.  A
    path that is the empty string is not reported: the pass ends with the
    [IndexError] of the path validator. *)
Theorem LoadVolumeMounts_first_error pre m post all_volumes ctr_name l :
  LoadVolumeMounts pre all_volumes ctr_name = Ret l →
  let run := LoadVolumeMounts (pre ++ m :: post) all_volumes ctr_name in
  (ms_name m = None →
   run = Fatal ("containers[" +:+ ctr_name +:+ "].volumeMounts["
                +:+ pretty (length pre) +:+ "] has no name"))
  ∧ (∀ v, ms_name m = Some v → IsRfc1035Name v = false →
          run = Fatal ("containers[" +:+ ctr_name +:+ "].volumeMounts["
                       +:+ pretty (length pre) +:+ "].nameis invalid: "
                       +:+ v))
  ∧ (∀ v, ms_name m = Some v → IsRfc1035Name v = true →
          v ∉ all_volumes →
          run = Fatal ("containers[" +:+ ctr_name +:+ "].volumeMounts["
                       +:+ pretty (length pre)
                       +:+ "].nameis not a known volume: " +:+ v))
  ∧ (∀ v, ms_name m = Some v → IsRfc1035Name v = true → v ∈ all_volumes →
          (ms_path m = None →
           run = Fatal ("containers[" +:+ ctr_name +:+ "].volumeMounts["
                        +:+ v +:+ "] has no path"))
          ∧ (∀ p, ms_path m = Some p → IsValidPath p = Ret false →
                  run = Fatal ("containers[" +:+ ctr_name
                               +:+ "].volumeMounts[" +:+ v
                               +:+ "].path is invalid: " +:+ p))
          ∧ (ms_path m = Some "" → run = Raise IndexError)).
Proof.
  intros Hpre run. subst run. unfold LoadVolumeMounts in *.
  rewrite for_enumerate_app, Hpre. cbn [mbind outcome_bind for_enumerate].
  rewrite Nat.add_0_l.
  assert (Hstep : ∀ o : outcome (list string),
    (∀ acc, o ≠ Ret acc) →
    LoadVolumeMounts_body all_volumes ctr_name (length pre) m l = o →
    LoadVolumeMounts_body all_volumes ctr_name (length pre) m l
    ≫= for_enumerate (LoadVolumeMounts_body all_volumes ctr_name)
         (S (length pre)) post
    = o).
  { intros o Ho <-.
    destruct (LoadVolumeMounts_body all_volumes ctr_name (length pre) m l)
      as [acc| |]; [|done..].
    by destruct (Ho acc). }
  unfold LoadVolumeMounts_body in Hstep at 1. split_and!.
  - intros Hn. apply Hstep; [done|]. by rewrite Hn.
  - intros v Hn Hv. apply Hstep; [done|]. by rewrite Hn, Hv.
  - intros v Hn Hv Hnin. apply Hstep; [done|]. rewrite Hn, Hv. simpl.
    by rewrite (bool_decide_eq_false_2 _ Hnin).
  - intros v Hn Hv Hin.
    assert (Hpath : ∀ o : outcome (list string),
      (∀ acc, o ≠ Ret acc) →
      match ms_path m with
      | None =>
          Fatal ("containers[" +:+ ctr_name +:+ "].volumeMounts["
                 +:+ v +:+ "] has no path")
      | Some vol_path =>
          IsValidPath vol_path ≫= λ valid : bool,
            if negb valid then
              Fatal ("containers[" +:+ ctr_name +:+ "].volumeMounts["
                     +:+ v +:+ "].path is invalid: " +:+ vol_path)
            else
              Ret (l ++ [VOLUMES_ROOT_DIR +:+ "/" +:+ v +:+ ":"
                         +:+ vol_path +:+ ":"
                         +:+ (if default false (ms_readOnly m)
                              then "ro" else "rw")])
      end = o →
      LoadVolumeMounts_body all_volumes ctr_name (length pre) m l
      ≫= for_enumerate (LoadVolumeMounts_body all_volumes ctr_name)
           (S (length pre)) post
      = o).
    { intros o Ho Hm. apply Hstep; [done|]. rewrite Hn, Hv. simpl.
      by rewrite (bool_decide_eq_true_2 _ Hin). }
    split_and!.
    + intros Hp. apply Hpath; [done|]. by rewrite Hp.
    + intros p Hp Hpv. apply Hpath; [done|]. by rewrite Hp, Hpv.
    + intros Hp. apply Hpath; [done|]. by rewrite Hp.
Qed.

Lemma LoadVolumeMounts_first_error_witness :
  LoadVolumeMounts
    [ {| ms_name := Some "data"; ms_path := Some "/data";
         ms_readOnly := None |} ] ["data"] "db"
  = Ret ["/export/data:/data:rw"]
  ∧ LoadVolumeMounts
      ([ {| ms_name := Some "data"; ms_path := Some "/data";
            ms_readOnly := None |} ]
       ++ {| ms_name := Some "logs"; ms_path := Some "/var/log";
             ms_readOnly := None |} :: []) ["data"] "db"
    = Fatal ("containers[" +:+ "db" +:+ "].volumeMounts[" +:+ pretty 1
             +:+ "].nameis not a known volume: " +:+ "logs").
Proof.
  split; [reflexivity|].
  apply (proj1 (proj2 (proj2 (LoadVolumeMounts_first_error
           [ {| ms_name := Some "data"; ms_path := Some "/data";
                ms_readOnly := None |} ]
           {| ms_name := Some "logs"; ms_path := Some "/var/log";
              ms_readOnly := None |} [] ["data"] "db"
           ["/export/data:/data:rw"] eq_refl))) "logs").
  - reflexivity.
  - reflexivity.
  - by intros [[=]|[]%elem_of_nil]%elem_of_cons.
Defined.

(** ** The environment sub-pass *)




(** X10. What the environment sub-pass reports for the first bad entry,
    met at position [length pre] after entries that loaded: a missing key
    or a key the validator rejects under the position of the entry, a
    missing value under the key. *)
Theorem LoadEnvVars_first_error pre e post ctr_name l :
  LoadEnvVars pre ctr_name = Ret l →
  (es_key e = None →
   LoadEnvVars (pre ++ e :: post) ctr_name
   = Fatal ("containers[" +:+ ctr_name +:+ "].env[" +:+ pretty (length pre)
            +:+ "] has no key"))
  ∧ (∀ k, es_key e = Some k → IsCToken k = false →
          LoadEnvVars (pre ++ e :: post) ctr_name
          = Fatal ("containers[" +:+ ctr_name +:+ "].env["
                   +:+ pretty (length pre) +:+ "].key is invalid: " +:+ k))
  ∧ (∀ k, es_key e = Some k → IsCToken k = true → es_value e = None →
          LoadEnvVars (pre ++ e :: post) ctr_name
          = Fatal ("containers[" +:+ ctr_name +:+ "].env[" +:+ k
                   +:+ "] has no value")).
Proof.
  intros Hpre.
  assert (Hstep : ∀ err_str,
    LoadEnvVars_body ctr_name (length pre) e l = SysExit err_str →
    LoadEnvVars (pre ++ e :: post) ctr_name = SysExit err_str).
  { intros err_str Hbody. unfold LoadEnvVars in *.
    rewrite for_enumerate_app, Hpre. simpl. by rewrite Hbody. }
  unfold LoadEnvVars_body in Hstep. split_and!.
  - intros Hk. apply Hstep. by rewrite Hk.
  - intros k Hk Hv. apply Hstep. by rewrite Hk, Hv.
  - intros k Hk Hv Hval. apply Hstep. by rewrite Hk, Hv, Hval.
Qed.

Lemma LoadEnvVars_first_error_witness :
  LoadEnvVars [ {| es_key := Some "HOME"; es_value := Some "/root" |} ] "web"
  = Ret ["HOME=/root"]
  ∧ LoadEnvVars
      ([ {| es_key := Some "HOME"; es_value := Some "/root" |} ]
       ++ {| es_key := Some "1st"; es_value := Some "x" |} :: []) "web"
    = Fatal ("containers[" +:+ "web" +:+ "].env[" +:+ pretty 1
             +:+ "].key is invalid: " +:+ "1st").
Proof.
  split; [reflexivity|].
  apply (proj1 (proj2 (LoadEnvVars_first_error
           [ {| es_key := Some "HOME"; es_value := Some "/root" |} ]
           {| es_key := Some "1st"; es_value := Some "x" |} [] "web"
           ["HOME=/root"] eq_refl)) "1st"); reflexivity.
Defined.

(** ** The containers pass *)

Lemma LoadUserContainers_body_Ret_2 all_volumes i ctr_spec st ctr :
  loads_as all_volumes ctr_spec ctr → name ctr ∉ all_ctr_names st →
  LoadUserContainers_body all_volumes i ctr_spec st
  = Ret {| all_ctrs := all_ctrs st ++ [ctr];
           all_ctr_names := all_ctr_names st ++ [name ctr] |}.
Proof.
  intros (n & img & Hn & Hvalid & Himg & Hwd & Hports & Hmounts & Henv
          & Hname & Himage & Hcmd & Hhost & Hdir & Hnet) Hfresh.
  destruct ctr as [cn ci cc ch cw cp cm ce cf]. simpl in *. subst.
  unfold LoadUserContainers_body. rewrite Hn, Hvalid. simpl.
  rewrite (bool_decide_eq_false_2 _ Hfresh), Himg.
  destruct (cs_workingDir ctr_spec) as [wd|]; simpl.
  - rewrite (Hwd wd eq_refl). simpl. by rewrite Hports, Hmounts, Henv.
  - by rewrite Hports, Hmounts, Henv.
Qed.

(** X11. The containers pass returns exactly when each entry loads (a
    valid name, an image, a valid working directory if one is given, and
    ports, mounts and environment that their sub-passes accept) and no two
    entries have the same name; it returns one container per entry, in
    manifest order. *)
Theorem LoadUserContainers_iff containers all_volumes users :
  LoadUserContainers containers all_volumes = Ret users ↔
  Forall2 (loads_as all_volumes) containers users ∧ NoDup (name <$> users).
Proof.
  split.
  - intros (? & ? & _)%LoadUserContainers_Ret. done.
  - unfold LoadUserContainers. intros [Hall Hnd].
    assert (Hloop :
      for_enumerate (LoadUserContainers_body all_volumes) 0 containers
        {| all_ctrs := []; all_ctr_names := [] |}
      = Ret {| all_ctrs := users; all_ctr_names := name <$> users |});
      [|by rewrite Hloop].
    revert users Hall Hnd.
    induction containers as [|c containers IH] using rev_ind;
      intros users Hall Hnd.
    + by apply Forall2_nil_inv_l in Hall as ->.
    + apply Forall2_app_inv_l in Hall as (us & k & Hus & Hlast & ->).
      apply Forall2_cons_inv_l in Hlast
        as (u & k' & Hu & ->%Forall2_nil_inv_l & ->).
      rewrite fmap_app in Hnd. simpl in Hnd.
      apply NoDup_snoc in Hnd as [Hfresh Hnd].
      rewrite for_enumerate_snoc, (IH us Hus Hnd). simpl.
      rewrite (LoadUserContainers_body_Ret_2 all_volumes _ c
                 {| all_ctrs := us; all_ctr_names := name <$> us |} u Hu Hfresh).
      simpl. by rewrite fmap_app.
Qed.

(** X12. The containers pass stops at the first entry that fails: a
    failure of a list of entries is the failure of every list that
    extends it, and when a list loads, each of its initial parts loads to
    the initial part of the result. *)
Theorem LoadUserContainers_fail_fast pre post all_volumes :
  (∀ err_str, LoadUserContainers pre all_volumes = SysExit err_str →
              LoadUserContainers (pre ++ post) all_volumes = SysExit err_str)
  ∧ (∀ e, LoadUserContainers pre all_volumes = Raise e →
          LoadUserContainers (pre ++ post) all_volumes = Raise e)
  ∧ (∀ users, LoadUserContainers (pre ++ post) all_volumes = Ret users →
              LoadUserContainers pre all_volumes
              = Ret (take (length pre) users)).
Proof.
  unfold LoadUserContainers. split_and!.
  - intros err_str H. rewrite for_enumerate_app.
    by destruct (for_enumerate _ 0 pre _).
  - intros e H. rewrite for_enumerate_app.
    by destruct (for_enumerate _ 0 pre _).
  - intros users Hall. fold (LoadUserContainers (pre ++ post) all_volumes) in Hall.
    fold (LoadUserContainers pre all_volumes).
    apply LoadUserContainers_iff in Hall as [Hall Hnd].
    apply Forall2_app_inv_l in Hall as (us & k & Hus & Hk & ->).
    rewrite (Forall2_length _ _ _ Hus), take_app_length.
    apply LoadUserContainers_iff. split; [done|].
    rewrite fmap_app in Hnd. by apply NoDup_app in Hnd as (? & _).
Qed.

Lemma LoadUserContainers_fail_fast_witness :
  LoadUserContainers [minimal_spec "web" None] []
  = SysExit "FATAL: containers[web] has no image"
  ∧ LoadUserContainers
      ([minimal_spec "web" None] ++ [minimal_spec "db" (Some "pg")]) []
    = SysExit "FATAL: containers[web] has no image".
Proof.
  split; [reflexivity|].
  apply (proj1 (LoadUserContainers_fail_fast
                  [minimal_spec "web" None] [minimal_spec "db" (Some "pg")]
                  [])).
  reflexivity.
Defined.

Lemma IsValidPath_true p :
  IsValidPath p = Ret true ↔
  (∃ rest, p = String "/" rest) ∧ String.length p ≤ MAX_PATH_LEN.
Proof.
  unfold IsValidPath. destruct p as [|c rest].
  - split; [done|]. by intros [[? [=]] _].
  - split.
    + intros [= [->%Ascii.eqb_eq Hlen%Nat.leb_le]%andb_true_iff].
      split; [by eexists|]. unfold MAX_PATH_LEN. simpl. lia.
    + intros [[rest' [= -> ->]] Hlen]. f_equal. apply andb_true_iff.
      split; [done|]. by apply Nat.leb_le.
Qed.

(** X13. Every container the containers pass returns has its own name as
    host name, the command of its entry (none, when the entry has none)
    and the working directory of its entry, which, when given, starts with
    a slash and has at most 512 characters. *)
Theorem LoadUserContainers_fields containers all_volumes users :
  LoadUserContainers containers all_volumes = Ret users →
  Forall2
    (λ ctr_spec ctr,
       hostname ctr = Some (name ctr)
       ∧ command ctr = default [] (cs_command ctr_spec)
       ∧ working_dir ctr = cs_workingDir ctr_spec
       ∧ (∀ wd, working_dir ctr = Some wd →
                (∃ rest, wd = String "/" rest) ∧ String.length wd ≤ 512))
    containers users.
Proof.
  intros [Hall _]%LoadUserContainers_iff.
  eapply Forall2_impl; [exact Hall|].
  intros spec ctr (n & img & _ & _ & _ & Hwd & _ & _ & _ & Hname & _ & Hcmd
                   & Hhost & Hdir & _).
  split_and!; try done.
  - by rewrite Hhost, Hname.
  - intros wd Hw. rewrite Hdir in Hw. by apply IsValidPath_true, Hwd.
Qed.

Lemma LoadUserContainers_fields_witness :
  Forall2
    (λ ctr_spec ctr,
       hostname ctr = Some (name ctr)
       ∧ command ctr = default [] (cs_command ctr_spec)
       ∧ working_dir ctr = cs_workingDir ctr_spec
       ∧ (∀ wd, working_dir ctr = Some wd →
                (∃ rest, wd = String "/" rest) ∧ String.length wd ≤ 512))
    [minimal_spec "web" (Some "nginx")] [minimal_ctr "web" "nginx"].
Proof.
  apply (LoadUserContainers_fields [minimal_spec "web" (Some "nginx")] []).
  reflexivity.
Defined.

Lemma LoadUserContainers_app_step pre c post all_volumes loaded o :
  LoadUserContainers pre all_volumes = Ret loaded →
  (∀ st, o ≠ Ret st) →
  LoadUserContainers_body all_volumes (length pre) c
    {| all_ctrs := loaded; all_ctr_names := name <$> loaded |} = o →
  LoadUserContainers (pre ++ c :: post) all_volumes
  = match o with
    | Ret st => Ret (all_ctrs st)
    | SysExit err_str => SysExit err_str
    | Raise e => Raise e
    end.
Proof.
  intros Hpre Ho <-. rewrite (LoadUserContainers_app_Ret _ _ _ _ Hpre).
  cbn [for_enumerate].
  destruct (LoadUserContainers_body all_volumes (length pre) c _)
    as [st| |]; [|done..].
  by destruct (Ho st).
Qed.

(** X14. What the containers pass reports for the first bad entry, met at
    position [length pre] after entries that loaded: a missing name or a
    name the validator rejects under the position of the entry, and, for
    an entry with a new valid name and an image, a working directory the
    path validator rejects under the name of the container. *)
Theorem LoadUserContainers_first_error pre c post all_volumes loaded :
  LoadUserContainers pre all_volumes = Ret loaded →
  (cs_name c = None →
   LoadUserContainers (pre ++ c :: post) all_volumes
   = Fatal ("containers[" +:+ pretty (length pre) +:+ "] has no name"))
  ∧ (∀ n, cs_name c = Some n → IsRfc1035Name n = false →
          LoadUserContainers (pre ++ c :: post) all_volumes
          = Fatal ("containers[" +:+ pretty (length pre)
                   +:+ "].name is invalid: " +:+ n))
  ∧ (∀ n img wd,
       cs_name c = Some n → IsRfc1035Name n = true →
       n ∉ name <$> loaded → cs_image c = Some img →
       cs_workingDir c = Some wd → IsValidPath wd = Ret false →
       LoadUserContainers (pre ++ c :: post) all_volumes
       = Fatal ("containers[" +:+ n +:+ "].workingDir is invalid: "
                +:+ wd)).
Proof.
  intros Hpre. split_and!.
  - intros Hn.
    rewrite (LoadUserContainers_app_step _ _ _ _ _
               (Fatal ("containers[" +:+ pretty (length pre)
                       +:+ "] has no name")) Hpre); [done..|].
    unfold LoadUserContainers_body. by rewrite Hn.
  - intros n Hn Hvalid.
    rewrite (LoadUserContainers_app_step _ _ _ _ _
               (Fatal ("containers[" +:+ pretty (length pre)
                       +:+ "].name is invalid: " +:+ n)) Hpre); [done..|].
    unfold LoadUserContainers_body. by rewrite Hn, Hvalid.
  - intros n img wd Hn Hvalid Hfresh Himg Hwd Hpath.
    rewrite (LoadUserContainers_app_step _ _ _ _ _
               (Fatal ("containers[" +:+ n +:+ "].workingDir is invalid: "
                       +:+ wd)) Hpre); [done..|].
    unfold LoadUserContainers_body. rewrite Hn, Hvalid. simpl.
    rewrite (bool_decide_eq_false_2 _ Hfresh), Himg, Hwd, Hpath. done.
Qed.

Lemma LoadUserContainers_first_error_witness :
  LoadUserContainers [minimal_spec "web" (Some "nginx")] []
  = Ret [minimal_ctr "web" "nginx"]
  ∧ LoadUserContainers
      ([minimal_spec "web" (Some "nginx")]
       ++ {| cs_name := Some "db"; cs_image := Some "pg";
             cs_command := None; cs_workingDir := Some "var/lib";
             cs_ports := None; cs_volumeMounts := None; cs_env := None |}
       :: []) []
    = Fatal ("containers[" +:+ "db" +:+ "].workingDir is invalid: "
             +:+ "var/lib").
Proof.
  split; [reflexivity|].
  apply (proj2 (proj2 (LoadUserContainers_first_error
           [minimal_spec "web" (Some "nginx")]
           {| cs_name := Some "db"; cs_image := Some "pg";
              cs_command := None; cs_workingDir := Some "var/lib";
              cs_ports := None; cs_volumeMounts := None; cs_env := None |}
           [] [] [minimal_ctr "web" "nginx"] eq_refl)) "db" "pg" "var/lib");
    try reflexivity.
  by intros [[=]|[]%elem_of_nil]%elem_of_cons.
Defined.

(** X15. For an entry with a new valid name, an image and no invalid
    working directory, the sub-passes run in the order ports, mounts,
    environment, and the first of them that fails gives the result of the
    containers pass, its message unchanged: a failure of the mounts is
    seen only when the ports load, one of the environment only when ports
    and mounts load. *)
Theorem LoadUserContainers_sub_pass_error pre c post all_volumes loaded n img :
  LoadUserContainers pre all_volumes = Ret loaded →
  cs_name c = Some n → IsRfc1035Name n = true → n ∉ name <$> loaded →
  cs_image c = Some img →
  (∀ wd, cs_workingDir c = Some wd → IsValidPath wd = Ret true) →
  let run := LoadUserContainers (pre ++ c :: post) all_volumes in
  let ports_run := LoadPorts (default [] (cs_ports c)) n in
  let mounts_run :=
    LoadVolumeMounts (default [] (cs_volumeMounts c)) all_volumes n in
  let env_run := LoadEnvVars (default [] (cs_env c)) n in
  (∀ err_str, ports_run = SysExit err_str → run = SysExit err_str)
  ∧ (∀ ps, ports_run = Ret ps →
       (∀ err_str, mounts_run = SysExit err_str → run = SysExit err_str)
       ∧ (∀ e, mounts_run = Raise e → run = Raise e)
       ∧ (∀ ms err_str, mounts_run = Ret ms →
            env_run = SysExit err_str → run = SysExit err_str)).
Proof.
  intros Hpre Hn Hvalid Hfresh Himg Hwd run ports_run mounts_run env_run.
  subst run ports_run mounts_run env_run.
  assert (Hbody : ∀ st,
    LoadUserContainers_body all_volumes (length pre) c st
    = if bool_decide (n ∈ all_ctr_names st) then
        Fatal ("containers[" +:+ pretty (length pre)
               +:+ "].name is not unique: " +:+ n)
      else
        ctr_ports ← LoadPorts (default [] (cs_ports c)) n;
        ctr_mounts ← LoadVolumeMounts (default [] (cs_volumeMounts c))
                       all_volumes n;
        ctr_env_vars ← LoadEnvVars (default [] (cs_env c)) n;
        Ret {| all_ctrs :=
                 all_ctrs st
                 ++ [{| name := n; image := img;
                        command := default [] (cs_command c);
                        hostname := Some n;
                        working_dir := cs_workingDir c;
                        ports := ctr_ports; mounts := ctr_mounts;
                        env_vars := ctr_env_vars;
                        network_from := Some "container:.net" |}];
               all_ctr_names := all_ctr_names st ++ [n] |}).
  { intros st. unfold LoadUserContainers_body. rewrite Hn, Hvalid, Himg.
    simpl. case_bool_decide; [done|].
    destruct (cs_workingDir c) as [wd|]; simpl; [|done].
    by rewrite (Hwd wd eq_refl). }
  assert (Hrun : ∀ o : outcome ctrs_state, (∀ st, o ≠ Ret st) →
    (ctr_ports ← LoadPorts (default [] (cs_ports c)) n;
     ctr_mounts ← LoadVolumeMounts (default [] (cs_volumeMounts c))
                    all_volumes n;
     ctr_env_vars ← LoadEnvVars (default [] (cs_env c)) n;
     Ret {| all_ctrs :=
              loaded
              ++ [{| name := n; image := img;
                     command := default [] (cs_command c);
                     hostname := Some n;
                     working_dir := cs_workingDir c;
                     ports := ctr_ports; mounts := ctr_mounts;
                     env_vars := ctr_env_vars;
                     network_from := Some "container:.net" |}];
            all_ctr_names := (name <$> loaded) ++ [n] |}) = o →
    LoadUserContainers (pre ++ c :: post) all_volumes
    = match o with
      | Ret st => Ret (all_ctrs st)
      | SysExit err_str => SysExit err_str
      | Raise e => Raise e
      end).
  { intros o Ho Heq.
    apply (LoadUserContainers_app_step _ _ _ _ _ o Hpre Ho).
    rewrite Hbody. simpl. by rewrite (bool_decide_eq_false_2 _ Hfresh). }
  split.
  - intros err_str Hp. apply (Hrun (SysExit err_str)); [done|].
    by rewrite Hp.
  - intros ps Hp. split_and!.
    + intros err_str Hm. apply (Hrun (SysExit err_str)); [done|].
      by rewrite Hp, Hm.
    + intros e Hm. apply (Hrun (Raise e)); [done|]. by rewrite Hp, Hm.
    + intros ms err_str Hm He. apply (Hrun (SysExit err_str)); [done|].
      by rewrite Hp, Hm, He.
Qed.

Lemma LoadUserContainers_sub_pass_error_witness :
  LoadUserContainers
    ([] ++ {| cs_name := Some "web"; cs_image := Some "nginx";
              cs_command := None; cs_workingDir := None;
              cs_ports := Some [ {| ps_name := None;
                                    ps_containerPort := Some 0%Z;
                                    ps_hostPort := None;
                                    ps_protocol := None |} ];
              cs_volumeMounts :=
                Some [ {| ms_name := None; ms_path := None;
                          ms_readOnly := None |} ];
              cs_env := None |} :: []) []
  = SysExit "FATAL: containers[web].ports[0].containerPort is invalid: 0".
Proof.
  apply (proj1 (LoadUserContainers_sub_pass_error []
           {| cs_name := Some "web"; cs_image := Some "nginx";
              cs_command := None; cs_workingDir := None;
              cs_ports := Some [ {| ps_name := None;
                                    ps_containerPort := Some 0%Z;
                                    ps_hostPort := None;
                                    ps_protocol := None |} ];
              cs_volumeMounts :=
                Some [ {| ms_name := None; ms_path := None;
                          ms_readOnly := None |} ];
              cs_env := None |} [] [] [] "web" "nginx"
           eq_refl eq_refl eq_refl (not_elem_of_nil _) eq_refl
           (λ wd (H : None = Some wd), ltac:(discriminate H)))).
  reflexivity.
Defined.

(** ** main *)

(** X16. [main] ends without launching anything exactly when the version
    is supported, the volumes load and the manifest has no container
    entry; the volumes are checked even then. *)
Theorem main_nothing_to_run config :
  main config = Ret None ↔
  CheckVersion config = Ret ()
  ∧ (∃ all_volumes,
       LoadVolumes (default [] (cfg_volumes config)) = Ret all_volumes)
  ∧ default [] (cfg_containers config) = [].
Proof.
  unfold main. split.
  - intros ([] & Hver & Hrest)%bind_Ret.
    apply bind_Ret in Hrest as (all_volumes & Hvols & Hrest).
    apply bind_Ret in Hrest as (users & Husers & Hrest).
    apply bind_Ret in Hrest as ([] & Hcheck & Hrest).
    split_and!; [done|by eexists|].
    apply LoadUserContainers_iff in Husers as [Hall _].
    destruct users as [|u users].
    + by apply Forall2_nil_inv_r in Hall.
    + simpl in Hrest. by destruct (LoadInfraContainers _ _).
  - intros (-> & [all_volumes ->] & ->). done.
Qed.

(** X17. [main] reports the first failure in the order version, volumes,
    containers, group-wide ports: a missing or unsupported version
    whatever the rest of the manifest holds, a failure of the volumes pass
    when the version is supported, one of the containers pass when the
    volumes load, and one of the group-wide check when the containers
    load. *)
Theorem main_first_failure config :
  (cfg_version config = None →
   main config = Fatal "config has no version field")
  ∧ (∀ v, cfg_version config = Some v → v ≠ "v1beta1" →
          main config
          = Fatal ("config version '" +:+ v +:+ "' is not supported"))
  ∧ (cfg_version config = Some "v1beta1" →
     (∀ err_str,
        LoadVolumes (default [] (cfg_volumes config)) = SysExit err_str →
        main config = SysExit err_str)
     ∧ (∀ all_volumes,
          LoadVolumes (default [] (cfg_volumes config)) = Ret all_volumes →
          (∀ err_str,
             LoadUserContainers (default [] (cfg_containers config))
               all_volumes = SysExit err_str →
             main config = SysExit err_str)
          ∧ (∀ e,
               LoadUserContainers (default [] (cfg_containers config))
                 all_volumes = Raise e →
               main config = Raise e)
          ∧ (∀ users err_str,
               LoadUserContainers (default [] (cfg_containers config))
                 all_volumes = Ret users →
               CheckGroupWideConflicts users = SysExit err_str →
               main config = SysExit err_str))).
Proof.
  unfold main, CheckVersion. split_and!.
  - by intros ->.
  - intros v -> Hv. rewrite bool_decide_eq_false_2; [done|].
    by intros ->%list_elem_of_singleton.
  - intros ->. simpl. split.
    + by intros err_str ->.
    + intros all_volumes ->. simpl. split_and!.
      * by intros err_str ->.
      * by intros e ->.
      * intros users err_str -> Hcheck. simpl. by rewrite Hcheck.
Qed.

Lemma main_first_failure_witness :
  main {| cfg_version := Some "v2"; cfg_volumes := None;
          cfg_containers := Some [minimal_spec "Web" None] |}
  = Fatal ("config version '" +:+ "v2" +:+ "' is not supported").
Proof.
  apply (proj1 (proj2 (main_first_failure
           {| cfg_version := Some "v2"; cfg_volumes := None;
              cfg_containers := Some [minimal_spec "Web" None] |})) "v2").
  - reflexivity.
  - discriminate.
Defined.



(** ** Command lines *)

Lemma FlagList_fold (values : list string) (flag : string) result :
  fold_left (λ result v, result ++ [flag; v]) values result
  = result ++ (values ≫= λ v, [flag; v]).
Proof.
  revert result. induction values as [|v values IH]; intros result; simpl.
  - by rewrite app_nil_r.
  - rewrite IH. by rewrite <-app_assoc.
Qed.

Lemma FlagList_bind values flag :
  FlagList values flag = values ≫= λ v, [flag; v].
Proof. apply (FlagList_fold values flag []). Qed.

(** X19. [FlagList] puts the flag before each value: the values are the
    items at the even places of the result, in their order, the flag is at
    every odd place, the result is twice as long as the list of values,
    and the flags of a list in two parts are those of the parts, one after
    the other. *)
Theorem FlagList_values values flag :
  unflag (FlagList values flag) = values
  ∧ length (FlagList values flag) = 2 * length values
  ∧ (∀ i, i < length values → FlagList values flag !! (2 * i) = Some flag)
  ∧ (∀ more, FlagList (values ++ more) flag
             = FlagList values flag ++ FlagList more flag).
Proof.
  rewrite !FlagList_bind. split_and!.
  - induction values as [|v values IH]; [done|].
    rewrite bind_cons. cbn [app unflag]. by rewrite IH.
  - induction values as [|v values IH]; [done|].
    rewrite bind_cons, length_app, IH. simpl. lia.
  - induction values as [|v values IH]; intros i Hi; simpl in Hi; [lia|].
    rewrite bind_cons. destruct i as [|i]; [done|].
    replace (2 * S i) with (S (S (2 * i))) by lia.
    cbn [app lookup list_lookup]. apply IH. lia.
  - intros more. rewrite !FlagList_bind. apply bind_app.
Qed.

Lemma FlagList_values_witness :
  FlagList ["a"; "b"; "c"] "-x" !! (2 * 1) = Some "-x".
Proof.
  apply (proj1 (proj2 (proj2 (FlagList_values ["a"; "b"; "c"] "-x"))) 1).
  simpl. lia.
Defined.

(** ** Running the group *)

Lemma popens_app t1 t2 : popens (t1 ++ t2) = popens t1 + popens t2.
Proof. unfold popens. by rewrite List.filter_app, length_app. Qed.

Lemma slept_app t1 t2 : slept (t1 ++ t2) = slept t1 + slept t2.
Proof. unfold slept. by rewrite sum_list_with_app. Qed.

Lemma popens_cons e t :
  popens (e :: t) = (if is_popen e then 1 else 0) + popens t.
Proof. unfold popens. simpl. by destruct (is_popen e). Qed.

Lemma slept_cons e t :
  slept (e :: t)
  = match e with EvSleep secs => secs | _ => 0 end + slept t.
Proof. done. Qed.

Ltac count_events :=
  rewrite ?popens_app, ?slept_app, ?popens_cons, ?slept_cons;
  change (popens []) with 0; change (slept []) with 0; simpl; lia.

Lemma pull_loop_eq runtime image n t :
  pull_loop runtime image n t
  = let t1 := t ++ [EvPopen [DOCKER_CMD; "pull"; image]] in
    if ((runtime (popens t)).1 =? 0)%Z then (t1, Ret ())
    else
      match n with
      | 0 =>
          (t1 ++ [EvLogInfo (runtime (popens t)).2],
           Fatal ("failed to pull " +:+ image))
      | S n' =>
          pull_loop runtime image n'
            (((t1 ++ [EvLogInfo (runtime (popens t)).2])
              ++ [EvLogInfo ("could not pull " +:+ image +:+ ", will retry "
                             +:+ pretty n +:+ " more time"
                             +:+ (if (1 <? n)%nat then "s" else ""))])
             ++ [EvSleep 3])
      end.
Proof.
  destruct n as [|n']; cbn [pull_loop];
    unfold mbind, io_bind, Popen_communicate, LogInfo, sleep, Fatal_io, mret,
      io_ret;
    destruct (runtime (popens t)) as [rc o]; simpl;
    by destruct (rc =? 0)%Z.
Qed.

(** X20. The pull loop never starts more than ten pulls of an image and
    never sleeps more than 27 seconds in all, whatever the registry
    answers; it does nothing but pull, log and sleep, and it ends either
    normally or in [Fatal] with the pull message. *)
Theorem pull_loop_bounds runtime image t :
  ∃ added o,
    pull_loop runtime image 9 t = (t ++ added, o)
    ∧ popens added ≤ 10
    ∧ slept added ≤ 27
    ∧ Forall (pull_event image) added
    ∧ (o = Ret () ∨ o = Fatal ("failed to pull " +:+ image)).
Proof.
  assert (Hgen : ∀ n t, ∃ added o,
    pull_loop runtime image n t = (t ++ added, o)
    ∧ popens added ≤ S n ∧ slept added ≤ 3 * n
    ∧ Forall (pull_event image) added
    ∧ (o = Ret () ∨ o = Fatal ("failed to pull " +:+ image))).
  { clear t. induction n as [|n IH]; intros t; rewrite pull_loop_eq;
      cbn zeta; destruct ((runtime (popens t)).1 =? 0)%Z.
    - eexists _, _. split; [done|].
      split_and!; [count_events..| |by left]. by repeat constructor.
    - rewrite <-app_assoc. eexists _, _. split; [done|].
      split_and!; [count_events..| |by right]. by repeat constructor.
    - eexists _, _. split; [done|].
      split_and!; [count_events..| |by left]. by repeat constructor.
    - edestruct IH as (added & o & -> & Hp & Hs & Hall & Ho).
      rewrite <-!app_assoc. eexists _, o. split; [done|].
      split_and!; [count_events..| |done].
      by repeat (constructor; [done|]). }
  apply (Hgen 9 t).
Qed.

(** X21. When the first [k] pulls of an image fail ([k] at most 9) and the
    next one succeeds, the pull loop ends normally after [k + 1] pulls and
    [k] sleeps of three seconds. *)
Theorem pull_loop_retry runtime image t k :
  k ≤ 9 →
  (∀ j, j < k → (runtime (popens t + j)).1 ≠ 0%Z) →
  (runtime (popens t + k)).1 = 0%Z →
  ∃ added,
    pull_loop runtime image 9 t = (t ++ added, Ret ())
    ∧ popens added = S k
    ∧ slept added = 3 * k
    ∧ Forall (pull_event image) added.
Proof.
  generalize 9 as n. intros n. revert t k.
  induction n as [|n IH]; intros t k Hk Hfail Hok; rewrite pull_loop_eq.
  - assert (k = 0) as -> by lia. rewrite Nat.add_0_r in Hok.
    cbn zeta. rewrite Hok. simpl. eexists. split; [done|].
    split_and!; [count_events..|]. by repeat constructor.
  - cbn zeta. destruct k as [|k].
    + rewrite Nat.add_0_r in Hok. rewrite Hok. simpl.
      eexists. split; [done|]. split_and!; [count_events..|].
      by repeat constructor.
    + pose proof (Hfail 0 ltac:(lia)) as H0. rewrite Nat.add_0_r in H0.
      apply Z.eqb_neq in H0. rewrite H0.
      match goal with
      | |- ∃ added, pull_loop _ _ _ ?t' = _ ∧ _ =>
          assert (Ht' : popens t' = S (popens t)) by count_events;
          destruct (IH t' k) as (added & Heq & Hp & Hs & Hall)
      end.
      * lia.
      * intros j Hj. rewrite Ht'.
        replace (S (popens t) + j) with (popens t + S j) by lia.
        apply Hfail. lia.
      * rewrite Ht'.
        by replace (S (popens t) + k) with (popens t + S k) by lia.
      * rewrite Heq, <-!app_assoc. eexists. split; [done|].
        split_and!; [count_events..|].
        by repeat (constructor; [done|]).
Qed.

Lemma pull_loop_retry_witness :
  let runtime := λ n : nat, if (n <? 2)%nat then (1%Z, "timeout")
                            else (0%Z, "done") in
  ∃ added,
    pull_loop runtime "nginx" 9 [] = ([] ++ added, Ret ())
    ∧ popens added = 3
    ∧ slept added = 3 * 2
    ∧ Forall (pull_event "nginx") added.
Proof.
  intros runtime. apply (pull_loop_retry runtime "nginx" [] 2).
  - lia.
  - intros j Hj. destruct j as [|[|j]]; [done..|lia].
  - reflexivity.
Defined.

Lemma pull_loop_exhausted runtime image n t :
  (∀ k, k ≤ n → (runtime (popens t + k)).1 ≠ 0%Z) →
  ∃ added,
    pull_loop runtime image n t
    = (t ++ added, Fatal ("failed to pull " +:+ image))
    ∧ popens added = S n
    ∧ slept added = 3 * n
    ∧ Forall (pull_event image) added.
Proof.
  revert t. induction n as [|n IH]; intros t Hfail; rewrite pull_loop_eq;
    cbn zeta; pose proof (Hfail 0 ltac:(lia)) as H0;
    rewrite Nat.add_0_r in H0; apply Z.eqb_neq in H0; rewrite H0.
  - rewrite <-app_assoc. eexists. split; [done|].
    split_and!; [count_events..|]. by repeat constructor.
  - match goal with
    | |- ∃ added, pull_loop _ _ _ ?t' = _ ∧ _ =>
        assert (Ht' : popens t' = S (popens t)) by count_events;
        destruct (IH t') as (added & Heq & Hp & Hs & Hall)
    end.
    + intros k Hk. rewrite Ht'.
      replace (S (popens t) + k) with (popens t + S k) by lia.
      apply Hfail. lia.
    + rewrite Heq, <-!app_assoc. eexists. split; [done|].
      split_and!; [count_events..|].
      by repeat (constructor; [done|]).
Qed.

Lemma RunContainers_body_eq runtime ctr t :
  RunContainers_body runtime ctr t
  = match
      pull_loop runtime (image ctr) 9
        (t ++ [EvLogInfo ("starting container '" +:+ name ctr +:+ "'")])
    with
    | (t1, Ret _) =>
        let t2 := (t1 ++ [EvCall [DOCKER_CMD; "kill"; name ctr]])
                  ++ [EvCall [DOCKER_CMD; "rm"; "-f"; name ctr]] in
        if ((runtime (popens t2)).1 =? 0)%Z then
          ((t2 ++ [EvPopen (docker_run_argv ctr)])
           ++ [EvSystem (KEEPALIVE_SCRIPT DOCKER_CMD LOG_CMD (name ctr)
                           (strip (runtime (popens t2)).2))],
           Ret ())
        else
          ((t2 ++ [EvPopen (docker_run_argv ctr)])
           ++ [EvLogInfo (runtime (popens t2)).2],
           Fatal ("failed to run container '" +:+ name ctr +:+ "'"))
    | (t1, SysExit err_str) => (t1, SysExit err_str)
    | (t1, Raise e) => (t1, Raise e)
    end.
Proof.
  unfold RunContainers_body, mbind, io_bind, LogInfo at 1.
  destruct (pull_loop _ _ _ _) as [t1 [[]| |]]; [|done..].
  unfold call, Popen_communicate, LogInfo, system, Fatal_io. cbn zeta.
  destruct (runtime _) as [rc o]. simpl. by destruct (rc =? 0)%Z.
Qed.

(** X22. When the ten pulls of the image of a container all fail,
    [RunContainers] ends in [Fatal] with the pull message after ten pulls
    and nine sleeps of three seconds.  It has then only pulled, logged and
    slept: that container is not killed, removed or run, and the
    containers after it are not touched. *)
Theorem RunContainers_pull_exhausted runtime ctr rest t :
  (∀ k, k ≤ 9 → (runtime (popens t + k)).1 ≠ 0%Z) →
  ∃ added,
    RunContainers runtime (ctr :: rest) t
    = (t ++ added, Fatal ("failed to pull " +:+ image ctr))
    ∧ popens added = 10
    ∧ slept added = 27
    ∧ Forall (pull_event (image ctr)) added.
Proof.
  intros Hfail. cbn [RunContainers]. unfold mbind at 1, io_bind at 1.
  rewrite RunContainers_body_eq.
  destruct (pull_loop_exhausted runtime (image ctr) 9
              (t ++ [EvLogInfo ("starting container '" +:+ name ctr
                                +:+ "'")]))
    as (added & -> & Hp & Hs & Hall).
  { intros k Hk. rewrite popens_app, popens_cons. simpl.
    change (popens []) with 0.
    replace (popens t + 0 + k) with (popens t + k) by lia. by apply Hfail. }
  unfold Fatal. cbn iota beta. rewrite <-app_assoc.
  eexists. split; [done|].
  split_and!; [count_events..|]. simpl. by constructor.
Qed.

Lemma RunContainers_pull_exhausted_witness :
  ∃ added,
    RunContainers (λ _, (1%Z, "no route to host"))
      (minimal_ctr "web" "nginx" :: [minimal_ctr "db" "pg"]) []
    = ([] ++ added, Fatal ("failed to pull " +:+ "nginx"))
    ∧ popens added = 10
    ∧ slept added = 27
    ∧ Forall (pull_event "nginx") added.
Proof.
  apply (RunContainers_pull_exhausted (λ _, (1%Z, "no route to host"))
           (minimal_ctr "web" "nginx") [minimal_ctr "db" "pg"] []).
  intros k Hk. simpl. lia.
Defined.

Lemma pull_loop_first_try runtime image n t :
  (runtime (popens t)).1 = 0%Z →
  pull_loop runtime image n t
  = (t ++ [EvPopen [DOCKER_CMD; "pull"; image]], Ret ()).
Proof. intros Hpull. rewrite pull_loop_eq. cbn zeta. by rewrite Hpull. Qed.

Lemma RunContainers_body_first_try runtime ctr t :
  (runtime (popens t)).1 = 0%Z →
  RunContainers_body runtime ctr t
  = let t2 :=
      t ++ [ EvLogInfo ("starting container '" +:+ name ctr +:+ "'");
             EvPopen [DOCKER_CMD; "pull"; image ctr];
             EvCall [DOCKER_CMD; "kill"; name ctr];
             EvCall [DOCKER_CMD; "rm"; "-f"; name ctr];
             EvPopen (docker_run_argv ctr) ] in
    if ((runtime (S (popens t))).1 =? 0)%Z then
      (t2 ++ [EvSystem (KEEPALIVE_SCRIPT DOCKER_CMD LOG_CMD (name ctr)
                          (strip (runtime (S (popens t))).2))],
       Ret ())
    else
      (t2 ++ [EvLogInfo (runtime (S (popens t))).2],
       Fatal ("failed to run container '" +:+ name ctr +:+ "'")).
Proof.
  intros Hpull. rewrite RunContainers_body_eq.
  rewrite pull_loop_first_try
    by (by replace (popens (t ++ [EvLogInfo _])) with (popens t)
          by count_events).
  cbn iota beta zeta.
  match goal with
  | |- context [runtime (popens ?t2)] =>
      replace (popens t2) with (S (popens t)) by count_events
  end.
  destruct ((runtime (S (popens t))).1 =? 0)%Z; by rewrite <-!app_assoc.
Qed.

Lemma RunContainers_body_ok runtime ctr t :
  (runtime (popens t)).1 = 0%Z → (runtime (S (popens t))).1 = 0%Z →
  RunContainers_body runtime ctr t
  = (t ++ started_events runtime (popens t) ctr, Ret ()).
Proof.
  intros Hpull Hrun. rewrite RunContainers_body_first_try by done.
  cbn zeta. rewrite Hrun. simpl. by rewrite <-app_assoc.
Qed.

(** X23. When every process [RunContainers] reads succeeds, it ends
    normally, and for each container in turn it logs the start, pulls the
    image once, kills and removes what runs under the name of the
    container, runs the container and installs the keepalive script with
    the name of the container and, as identifier, the output of
    [docker run] without the white space around it. *)
Theorem RunContainers_all_succeed runtime containers t :
  (∀ n, (runtime n).1 = 0%Z) →
  RunContainers runtime containers t
  = (t ++ mjoin (imap (λ i ctr,
                         started_events runtime (popens t + 2 * i) ctr)
                   containers),
     Ret ()).
Proof.
  intros Hok. revert t. induction containers as [|ctr containers IH];
    intros t.
  - simpl. by rewrite app_nil_r.
  - cbn [RunContainers]. unfold mbind at 1, io_bind at 1.
    rewrite RunContainers_body_ok by done. rewrite IH.
    rewrite imap_cons. cbn [mjoin list_join]. rewrite <-app_assoc.
    rewrite Nat.mul_0_r, Nat.add_0_r. do 4 f_equal.
    apply imap_ext. intros i c _. simpl. f_equal.
    unfold started_events. count_events.
Qed.

Lemma RunContainers_all_succeed_witness :
  RunContainers (λ _, (0%Z, "4f2a" +:+ NL)) [minimal_ctr "web" "nginx"] []
  = ([] ++ mjoin (imap (λ i ctr,
                          started_events (λ _, (0%Z, "4f2a" +:+ NL))
                            (popens [] + 2 * i) ctr)
                    [minimal_ctr "web" "nginx"]),
     Ret ()).
Proof.
  apply (RunContainers_all_succeed (λ _, (0%Z, "4f2a" +:+ NL))).
  reflexivity.
Defined.

(** X24. When the pull of the image of a container succeeds at once and
    [docker run] fails, [RunContainers] ends in [Fatal] with the run
    message, after it has killed and removed what ran under that name; the
    output of [docker run] is logged, no keepalive is installed and the
    containers after it are not touched. *)
Theorem RunContainers_run_fails runtime ctr rest t :
  (runtime (popens t)).1 = 0%Z → (runtime (S (popens t))).1 ≠ 0%Z →
  RunContainers runtime (ctr :: rest) t
  = (t ++ [ EvLogInfo ("starting container '" +:+ name ctr +:+ "'");
            EvPopen [DOCKER_CMD; "pull"; image ctr];
            EvCall [DOCKER_CMD; "kill"; name ctr];
            EvCall [DOCKER_CMD; "rm"; "-f"; name ctr];
            EvPopen (docker_run_argv ctr);
            EvLogInfo (runtime (S (popens t))).2 ],
     Fatal ("failed to run container '" +:+ name ctr +:+ "'")).
Proof.
  intros Hpull Hrun. cbn [RunContainers]. unfold mbind at 1, io_bind at 1.
  rewrite RunContainers_body_first_try by done. cbn zeta.
  apply Z.eqb_neq in Hrun. rewrite Hrun. unfold Fatal. cbn iota beta.
  by rewrite <-app_assoc.
Qed.

Lemma RunContainers_run_fails_witness :
  let runtime := λ n : nat, if (n =? 0)%nat then (0%Z, "pulled")
                            else (125%Z, "port is already allocated") in
  RunContainers runtime
    (minimal_ctr "web" "nginx" :: [minimal_ctr "db" "pg"]) []
  = ([] ++ [ EvLogInfo ("starting container '" +:+ "web" +:+ "'");
             EvPopen [DOCKER_CMD; "pull"; "nginx"];
             EvCall [DOCKER_CMD; "kill"; "web"];
             EvCall [DOCKER_CMD; "rm"; "-f"; "web"];
             EvPopen (docker_run_argv (minimal_ctr "web" "nginx"));
             EvLogInfo "port is already allocated" ],
     Fatal ("failed to run container '" +:+ "web" +:+ "'")).
Proof.
  intros runtime.
  apply (RunContainers_run_fails runtime (minimal_ctr "web" "nginx")
           [minimal_ctr "db" "pg"] []).
  - reflexivity.
  - discriminate.
Defined.

Lemma docker_runs_app t1 t2 : docker_runs (t1 ++ t2) = docker_runs t1 ++ docker_runs t2.
Proof. apply omap_app. Qed.

Lemma docker_runs_started runtime k ctr :
  docker_runs (started_events runtime k ctr) = [docker_run_argv ctr].
Proof. done. Qed.

Lemma docker_runs_all_started runtime (containers : list Container) f :
  docker_runs (mjoin (imap (λ i ctr, started_events runtime (f i) ctr)
                        containers))
  = docker_run_argv <$> containers.
Proof.
  revert f. induction containers as [|ctr containers IH]; intros f; [done|].
  rewrite imap_cons. cbn [mjoin list_join].
  rewrite docker_runs_app, docker_runs_started, fmap_cons. simpl. f_equal.
  apply (IH (f ∘ S)).
Qed.

Lemma popens_all_started runtime (containers : list Container) f :
  popens (mjoin (imap (λ i ctr, started_events runtime (f i) ctr)
                   containers))
  = 2 * length containers.
Proof.
  revert f. induction containers as [|ctr containers IH]; intros f; [done|].
  rewrite imap_cons. cbn [mjoin list_join length].
  rewrite popens_app.
  match goal with
  | |- _ + ?x = _ =>
      replace x with (2 * length containers)
        by (symmetry; apply (IH (f ∘ S)))
  end.
  unfold started_events.
  rewrite !popens_cons. simpl. change (popens []) with 0. lia.
Qed.

Lemma slept_all_started runtime (containers : list Container) f :
  slept (mjoin (imap (λ i ctr, started_events runtime (f i) ctr)
                  containers))
  = 0.
Proof.
  revert f. induction containers as [|ctr containers IH]; intros f; [done|].
  rewrite imap_cons. cbn [mjoin list_join].
  rewrite slept_app.
  match goal with
  | |- _ + ?x = _ => replace x with 0 by (symmetry; apply (IH (f ∘ S)))
  end.
  done.
Qed.

(** X25. For a manifest that [main] accepts, when every process read
    succeeds, [RunContainers] ends normally on the group of [main], never
    sleeps, and issues [docker run] once per container of the group, in
    the order of the group: first for the holder [.net], then for the
    containers in manifest order. *)
Theorem main_then_RunContainers runtime config group :
  main config = Ret (Some group) →
  (∀ n, (runtime n).1 = 0%Z) →
  ∃ trace,
    RunContainers runtime group [] = (trace, Ret ())
    ∧ docker_runs trace = docker_run_argv <$> group
    ∧ name <$> group
      = ".net" :: omap cs_name (default [] (cfg_containers config))
    ∧ popens trace = 2 * length group
    ∧ slept trace = 0.
Proof.
  intros Hmain Hok. rewrite (RunContainers_all_succeed _ _ _ Hok).
  eexists. split; [done|]. split_and!.
  - apply docker_runs_all_started.
  - apply main_Some in Hmain
      as (all_volumes & users & _ & _ & Husers & _ & _ & ->).
    apply LoadUserContainers_iff in Husers as [Hall _].
    rewrite fmap_cons, name_set_ports. simpl. f_equal.
    by eapply loads_as_names.
  - apply popens_all_started.
  - apply slept_all_started.
Qed.

Lemma main_then_RunContainers_witness :
  ∃ trace,
    RunContainers (λ _, (0%Z, "4f2a"))
      [net_ctr_with []; minimal_ctr "web" "nginx"] []
    = (trace, Ret ())
    ∧ docker_runs trace
      = docker_run_argv <$> [net_ctr_with []; minimal_ctr "web" "nginx"]
    ∧ name <$> [net_ctr_with []; minimal_ctr "web" "nginx"]
      = ".net" :: omap cs_name [minimal_spec "web" (Some "nginx")]
    ∧ popens trace = 2 * 2
    ∧ slept trace = 0.
Proof.
  apply (main_then_RunContainers (λ _, (0%Z, "4f2a"))
           {| cfg_version := Some "v1beta1"; cfg_volumes := None;
              cfg_containers := Some [minimal_spec "web" (Some "nginx")] |}).
  - reflexivity.
  - reflexivity.
Defined.




